(** * Options of an imaging device: a shallow embedding of [src/option.h]

    The header declares the abstract [option] contract and three concrete
    options that carry code: [uvc_xu_option<T>] (a vendor extension-unit
    register), [fw_logger_option] (a toggle for a firmware-log polling
    thread) and [struct_feild_option<T,R,W,U>] (a field of a cached
    structure), together with the free function [hexify].

    Conventions of the embedding.
    - [float] is IEEE binary32, modelled by [spec_float] with precision 24
      and maximal exponent 128.
    - [uint8_t] / [unsigned char] values are [N]; wider integers are [Z] with
      their representable interval written out.
    - A C++ member function is a function in the monad [M W], which threads
      the world [W] it can reach (the object and what its references point
      to) and ends in [Return], [Throw] or [Undefined]: the call does not
      complete and no handler catches it (undefined behaviour, or
      [std::terminate]).
    - Abstract collaborators ([uvc::uvc_device], [struct_interface]) are type
      classes; heaps of shared objects are [gmap]s from addresses. *)

From Stdlib Require Import ZArith NArith String Ascii List Lia Bool.
From Stdlib Require Import Floats.SpecFloat.
From Equations Require Import Equations.
From stdpp Require Import gmap strings list.
Import ListNotations.
Open Scope Z_scope.

(* ===================================================================== *)
(** * Part I: definitions                                                 *)
(* ===================================================================== *)

(** ** [float] *)

Definition float := spec_float.
Definition float_prec : Z := 24.
Definition float_emax : Z := 128.

(** [static_cast<float>(z)] for an integer [z]: round to nearest even. *)
Definition float_of_Z (z : Z) : float :=
  binary_normalize float_prec float_emax z 0 false.

(** The floats a C++ [float] can hold: canonical mantissa and exponent. *)
Definition valid_float (v : float) : bool :=
  valid_binary float_prec float_emax v.

(** [a >= b] and [a < b] on floats; both are false when an operand is NaN. *)
Definition float_ge (a b : float) : bool := SFleb b a.
Definition float_lt (a b : float) : bool := SFltb a b.
Definition float_le (a b : float) : bool := SFleb a b.

(** The integer part of a float (rounding toward zero), when it has one. *)
Definition float_trunc (v : float) : option Z :=
  match v with
  | S754_zero _ => Some 0
  | S754_finite s m e => Some (cond_Zopp s (Z.shiftl (Zpos m) e))
  | S754_infinity _ | S754_nan => None
  end.

(** ** Exceptions, outcomes and the method monad *)

Inductive exception : Type :=
| wrong_api_call_sequence_exception (what : string)
| system_error
| transport_exception (what : string).

Inductive outcome (A : Type) : Type :=
| Return (a : A)
| Throw (e : exception)
| Undefined.
Arguments Return {A} a.
Arguments Throw {A} e.
Arguments Undefined {A}.

Definition M (W A : Type) : Type := W -> outcome A * W.

Definition ret {W A} (a : A) : M W A := fun w => (Return a, w).

Definition throw {W A} (e : exception) : M W A := fun w => (Throw e, w).

Definition undefined {W A} : M W A := fun w => (Undefined, w).

Definition bind {W A B} (m : M W A) (k : A -> M W B) : M W B :=
  fun w =>
    match m w with
    | (Return a, w') => k a w'
    | (Throw e, w') => (Throw e, w')
    | (Undefined, w') => (Undefined, w')
    end.

Definition get_world {W} : M W W := fun w => (Return w, w).
Definition put_world {W} (w : W) : M W unit := fun _ => (Return tt, w).

Declare Scope method_scope.
Delimit Scope method_scope with method.
Notation "'let*' x ':=' m 'in' k" := (bind m (fun x => k))
  (at level 10, x name, m at level 100, k at level 200) : method_scope.
Notation "m ;; k" := (bind m (fun _ => k))
  (at level 100, k at level 200, right associativity) : method_scope.
Open Scope method_scope.

(** [try { body } catch(...) { }] *)
Definition try_catch_all {W} (body : M W unit) : M W unit :=
  fun w =>
    match body w with
    | (Throw _, w') => (Return tt, w')
    | r => r
    end.

(** Did a call end in a [wrong_api_call_sequence_exception]? *)
Definition sequencing_violation {A} (r : outcome A) : bool :=
  match r with
  | Throw (wrong_api_call_sequence_exception _) => true
  | _ => false
  end.

(** Did a call end in any exception? *)
Definition threw {A} (r : outcome A) : bool :=
  match r with
  | Throw _ => true
  | _ => false
  end.

(** ** [option_range] *)

Record option_range : Type := {
  min : float;
  max : float;
  step : float;
  def : float }.

(** [min <= def <= max], as C++ would evaluate it on floats. *)
Definition range_consistent (r : option_range) : bool :=
  float_le (min r) (def r) && float_le (def r) (max r).

(** ** [hexify] *)

(** ["0123456789ABCDEF"[k]] *)
Definition hex_digit (k : N) : ascii :=
  match String.get (N.to_nat k) "0123456789ABCDEF" with
  | Some c => c
  | None => "000"%char
  end.

(** [res += c] *)
Definition push_back (res : string) (c : ascii) : string :=
  (res ++ String c EmptyString)%string.

Definition inspect {A} (a : A) : {b : A | a = b} := exist _ a eq_refl.

(** The [do { ... } while (n)] loop of [hexify]. *)
Equations? hexify_loop (n : N) (res : string) : string by wf (N.to_nat n) lt :=
  hexify_loop n res with inspect (N.shiftr n 4) := {
    | @exist 0%N _ => push_back res (hex_digit (n mod 16)%N);
    | @exist (Npos p) _ =>
        hexify_loop (Npos p) (push_back res (hex_digit (n mod 16)%N)) }.
Proof.
  rewrite N.shiftr_div_pow2 in e. change (2 ^ 4)%N with 16%N in e.
  assert (n / 16 < n)%N; [| lia].
  apply N.div_lt; [| lia].
  destruct n; [discriminate | lia].
Qed.

Definition hexify (n : N) : string :=
  let res := String.rev (hexify_loop n "") in
  if Nat.eqb (String.length res) 1 then ("0" ++ res)%string else res.

(** The payload of a log line as the specification words it: every byte as
    its two hex digits followed by one space. *)
Definition hex_payload (data : list N) : string :=
  fold_right (fun b rest => (hexify b ++ " " ++ rest)%string) ""%string data.

(** ** Collaborators of the firmware logger *)

(** [command] (hw-monitor.h): the op-code and the first parameter, the two
    fields the logger sets. *)
Record command : Type := {
  cmd : N;
  param1 : Z }.

(** What [hw_monitor::send] hands back: the bytes, or an exception. *)
Inductive reply : Type :=
| Data (bytes : list N)
| Failure (e : exception).

Record hw_monitor : Type := {
  send : command -> reply }.

(** A [std::weak_ptr<hw_monitor>] is an address; the monitors that are still
    alive are the entries of a heap, so [lock()] is a lookup. *)
Definition weak_ptr : Type := positive.

Definition lock (hw : weak_ptr) (heap : gmap positive hw_monitor)
  : option hw_monitor := heap !! hw.

(** A [std::thread] object, as far as [join] can tell. *)
Record thread : Type := {
  joinable : bool }.

(** What [new std::thread(...)] does in one call, an answer of the system:
    the thread is started, or the constructor throws [std::system_error]
    because no thread could be started. *)
Inductive thread_ctor : Type :=
| thread_started
| thread_failed.

(** What the polling thread acts on: the time it has slept and the lines it
    has handed to [LOG_INFO]. *)
Record sink : Type := {
  elapsed_ms : N;
  log_info : list string }.

Definition sleep_for (ms : N) : M sink unit :=
  fun k => (Return tt, {| elapsed_ms := elapsed_ms k + ms; log_info := log_info k |}).

Definition LOG_INFO (line : string) : M sink unit :=
  fun k => (Return tt, {| elapsed_ms := elapsed_ms k; log_info := log_info k ++ [line] |}).

(** What the polling thread observes at the top of one iteration: the value
    of the atomic flag and the monitors alive at that moment. *)
Record tick : Type := {
  keep_alive_seen : bool;
  monitors : gmap positive hw_monitor }.

(** How far the polling thread has come once its observations are used up. *)
Inductive worker : Type :=
| Polling (k : sink)
| Exited (k : sink)
| Aborted.

(** ** [fw_logger_option] *)

Module fw_logger_option.

Record t : Type := {
  _keep_fw_logger_alive : bool;
  _fw_log_op_code : N;
  _grab_rate_in_ms : N;
  _hw : weak_ptr;
  _desciption : string;
  _fw_logger_thread : option thread }.

Definition with_keep_alive (b : bool) (o : t) : t :=
  {| _keep_fw_logger_alive := b;
     _fw_log_op_code := _fw_log_op_code o;
     _grab_rate_in_ms := _grab_rate_in_ms o;
     _hw := _hw o;
     _desciption := _desciption o;
     _fw_logger_thread := _fw_logger_thread o |}.

Definition with_thread (th : option thread) (o : t) : t :=
  {| _keep_fw_logger_alive := _keep_fw_logger_alive o;
     _fw_log_op_code := _fw_log_op_code o;
     _grab_rate_in_ms := _grab_rate_in_ms o;
     _hw := _hw o;
     _desciption := _desciption o;
     _fw_logger_thread := th |}.

(** The constructor. *)
Definition make (hw : weak_ptr) (fw_log_op_code : N) (grab_rate_in_ms : N)
    (description : string) : t :=
  {| _keep_fw_logger_alive := false;
     _fw_log_op_code := fw_log_op_code;
     _grab_rate_in_ms := grab_rate_in_ms;
     _hw := hw;
     _desciption := description;
     _fw_logger_thread := None |}.

(** *** The polling thread *)

Definition data_size : Z := 500.

Definition log_command (o : t) : command :=
  {| cmd := _fw_log_op_code o; param1 := data_size |}.

(** [sstr << "FW_Log_Data:"; for (...) sstr << hexify(data[i]) << " ";] *)
Definition log_line (data : list N) : string :=
  fold_left (fun sstr b => (sstr ++ hexify b ++ " ")%string) data
            "FW_Log_Data:"%string.

(** [strong->send(cmd)], which may throw. *)
Definition send_command (strong : hw_monitor) (c : command) : M sink (list N) :=
  match send strong c with
  | Data bytes => ret bytes
  | Failure e => throw e
  end.

(** The [try { ... } catch(...) { }] block of one iteration. *)
Definition poll (o : t) (heap : gmap positive hw_monitor) : M sink unit :=
  try_catch_all
    match lock (_hw o) heap with
    | Some strong =>
        let* data := send_command strong (log_command o) in
        if negb (Nat.eqb (length data) 0)
        then LOG_INFO (log_line data)
        else ret tt
    | None => ret tt
    end.

(** The sink after one sleep of the grab rate. *)
Definition slept (o : t) (k : sink) : sink :=
  {| elapsed_ms := elapsed_ms k + _grab_rate_in_ms o; log_info := log_info k |}.

(** One pass through the body of [while (_keep_fw_logger_alive)]. *)
Definition iteration (o : t) (heap : gmap positive hw_monitor) : M sink unit :=
  sleep_for (_grab_rate_in_ms o) ;;
  poll o heap.

(** The thread function, run against the observations it makes; an
    exception or undefined behaviour leaving an iteration would abort it. *)
Fixpoint fw_logger_thread (o : t) (ticks : list tick) (k : sink) : worker :=
  match ticks with
  | [] => Polling k
  | tk :: ticks' =>
      if keep_alive_seen tk then
        match iteration o (monitors tk) k with
        | (Return _, k') => fw_logger_thread o ticks' k'
        | (Throw _, _) | (Undefined, _) => Aborted
        end
      else Exited k
  end.

(** *** The controlling side *)

(** The invariant of the data model: a worker thread exists (is joinable)
    exactly when the flag is set. *)
Definition worker_matches_flag (o : t) : bool :=
  Bool.eqb (_keep_fw_logger_alive o)
           match _fw_logger_thread o with
           | Some th => joinable th
           | None => false
           end.

(** [_fw_logger_thread->join()] *)
Definition join : M t unit :=
  fun o =>
    match _fw_logger_thread o with
    | None => (Undefined, o)
    | Some th =>
        if joinable th
        then (Return tt, with_thread (Some {| joinable := false |}) o)
        else (Throw system_error, o)
    end.

(** [new std::thread(...)] *)
Definition new_thread (ctor : thread_ctor) : M t thread :=
  match ctor with
  | thread_started => ret {| joinable := true |}
  | thread_failed => throw system_error
  end.

(** [_fw_logger_thread = std::unique_ptr<std::thread>(...)]: the pointer
    takes the new thread and the [std::thread] it held before is destroyed;
    destroying a joinable [std::thread] calls [std::terminate]. *)
Definition assign_thread (th : thread) : M t unit :=
  fun o =>
    match _fw_logger_thread o with
    | Some old =>
        if joinable old
        then (Undefined, with_thread (Some th) o)
        else (Return tt, with_thread (Some th) o)
    | None => (Return tt, with_thread (Some th) o)
    end.

(** [start_fw_logger], given what the thread constructor does in this
    call.  The flag is set before the thread is constructed, and nothing
    resets it when the constructor throws. *)
Definition start_fw_logger (ctor : thread_ctor) : M t unit :=
  let* o := get_world in
  if _keep_fw_logger_alive o
  then throw (wrong_api_call_sequence_exception "FW logger already started")
  else
    put_world (with_keep_alive true o) ;;
    let* th := new_thread ctor in
    assign_thread th.

Definition stop_fw_logger : M t unit :=
  let* o := get_world in
  if negb (_keep_fw_logger_alive o)
  then throw (wrong_api_call_sequence_exception "FW logger not started")
  else
    put_world (with_keep_alive false o) ;;
    join.

Definition set (ctor : thread_ctor) (value : float) : M t unit :=
  if float_ge value (float_of_Z 1)
  then start_fw_logger ctor
  else stop_fw_logger.

Definition query : M t float :=
  let* o := get_world in
  ret (float_of_Z (Z.b2z (_keep_fw_logger_alive o))).

Definition get_range : M t option_range :=
  ret {| min := float_of_Z 0; max := float_of_Z 1;
         step := float_of_Z 1; def := float_of_Z 0 |}.

Definition is_enabled (o : t) : bool := true.

Definition get_description (o : t) : string := _desciption o.

(** The destructor body. *)
Definition destroy : M t unit :=
  try_catch_all
    (let* o := get_world in
     if _keep_fw_logger_alive o then stop_fw_logger else ret tt).

End fw_logger_option.

(** ** Scalar register types and their object representation *)

(** The template parameter [T] of [uvc_xu_option]: an integer type of
    [sizeof] bytes, signed or not. *)
Record scalar : Type := {
  sizeof : nat;
  is_signed : bool }.

Definition uint8_t : scalar := {| sizeof := 1; is_signed := false |}.
Definition uint16_t : scalar := {| sizeof := 2; is_signed := false |}.
Definition int32_t : scalar := {| sizeof := 4; is_signed := true |}.

Definition bits (T : scalar) : Z := 8 * Z.of_nat (sizeof T).

Definition T_min (T : scalar) : Z :=
  if is_signed T then - 2 ^ (bits T - 1) else 0.

Definition T_max (T : scalar) : Z :=
  if is_signed T then 2 ^ (bits T - 1) - 1 else 2 ^ bits T - 1.

Definition representable (T : scalar) (z : Z) : bool :=
  (T_min T <=? z) && (z <=? T_max T).

(** [static_cast<T>(value)]: the integer part, undefined ([None]) when the
    float has none or it does not fit in [T]. *)
Definition static_cast_T (T : scalar) (value : float) : option Z :=
  match float_trunc value with
  | Some z => if representable T z then Some z else None
  | None => None
  end.

(** Little-endian bytes of an unsigned value, and back. *)
Fixpoint le_bytes (n : nat) (u : Z) : list N :=
  match n with
  | O => []
  | S n' => Z.to_N (u mod 256) :: le_bytes n' (u / 256)
  end.

Fixpoint le_value (bs : list N) : Z :=
  match bs with
  | [] => 0
  | b :: bs' => Z.of_N b + 256 * le_value bs'
  end.

(** [reinterpret_cast<uint8_t*>(&t)] with [sizeof(T)]: the two's-complement
    little-endian bytes of [t], and the value of a [T] holding given bytes. *)
Definition object_bytes (T : scalar) (t : Z) : list N :=
  le_bytes (sizeof T) (t mod 2 ^ bits T).

Definition object_value (T : scalar) (bs : list N) : Z :=
  let u := le_value bs in
  if is_signed T && (2 ^ (bits T - 1) <=? u) then u - 2 ^ bits T else u.

(** ** The UVC transport *)

(** [uvc::control_range] (backend.h). *)
Record control_range : Type := {
  cr_min : Z;
  cr_max : Z;
  cr_step : Z;
  cr_def : Z }.

(** The extension-unit part of the abstract [uvc::uvc_device] (backend.h);
    [XU] is the extension-unit descriptor, [D] the state of the device. *)
Class uvc_device (XU D : Type) : Type := {
  set_xu : XU -> Z -> list N -> M D unit;
  get_xu : XU -> Z -> nat -> M D (list N);
  get_xu_range : XU -> Z -> nat -> M D control_range }.

(** What the round trip through a register asks of the transport: when a
    value inside the range the device reports for a control has been written
    successfully, a successful read of that control returns the bytes
    written. *)
Definition register_holds {XU D : Type} `{uvc_device XU D} (T : scalar) : Prop :=
  forall (xu : XU) (id : Z) (t : Z) (d d0 d1 d2 : D)
         (rng : control_range) (data : list N),
    representable T t = true ->
    get_xu_range xu id (sizeof T) d = (Return rng, d0) ->
    cr_min rng <= t <= cr_max rng ->
    set_xu xu id (object_bytes T t) d = (Return tt, d1) ->
    get_xu xu id (sizeof T) d1 = (Return data, d2) ->
    data = object_bytes T t.

(** The endpoint owns the device. *)
Record uvc_endpoint (D : Type) : Type := {
  _device : D }.
Arguments _device {D} _.

(** Modelled from the spec: [uvc_endpoint::invoke_powered] is declared in
    subdevice.h, which is not part of this source; it "executes fn with the
    device guaranteed powered, returns fn's result". *)
Definition invoke_powered {D R} (action : M D R) : M (uvc_endpoint D) R :=
  fun ep =>
    let (r, dev) := action (_device ep) in
    (r, {| _device := dev |}).

(** ** [uvc_xu_option<T>] *)

Module uvc_xu_option.
Section WithDevice.
Context {XU D : Type} `{uvc_device XU D}.

Record t : Type := {
  _xu : XU;
  _id : Z;
  _desciption : string }.

(** The object and the endpoint its [_ep] reference designates. *)
Record world : Type := {
  self : t;
  _ep : uvc_endpoint D }.

Definition make (xu : XU) (id : Z) (description : string) : t :=
  {| _xu := xu; _id := id; _desciption := description |}.

(** Run a call on the endpoint behind [_ep]. *)
Definition on_ep {R} (m : M (uvc_endpoint D) R) : M world R :=
  fun w =>
    let (r, ep) := m (_ep w) in
    (r, {| self := self w; _ep := ep |}).

Variable T : scalar.

Definition set (value : float) : M world unit :=
  let* w := get_world in
  on_ep (invoke_powered
    match static_cast_T T value with
    | Some t => set_xu (_xu (self w)) (_id (self w)) (object_bytes T t)
    | None => undefined
    end).

Definition query : M world float :=
  let* w := get_world in
  on_ep (invoke_powered
    (let* data := get_xu (_xu (self w)) (_id (self w)) (sizeof T) in
     if Nat.eqb (length data) (sizeof T)
     then ret (float_of_Z (object_value T data))
     else undefined)).

Definition get_range : M world option_range :=
  let* w := get_world in
  let* uvc_range :=
    on_ep (invoke_powered
      (get_xu_range (_xu (self w)) (_id (self w)) (sizeof T))) in
  ret {| min := float_of_Z (cr_min uvc_range);
         max := float_of_Z (cr_max uvc_range);
         step := float_of_Z (cr_step uvc_range);
         def := float_of_Z (cr_def uvc_range) |}.

Definition is_enabled (o : t) : bool := true.

Definition get_description (o : t) : string := _desciption o.

End WithDevice.
End uvc_xu_option.

(** A register file standing for a device: each control holds the bytes last
    written to it and has a fixed range; a control that was never declared
    fails the transfer. *)
Module register_file.

Record t : Type := {
  registers : gmap (Z * Z) (list N);
  ranges : gmap (Z * Z) control_range }.

Definition write (xu ctrl : Z) (data : list N) : M t unit :=
  fun d =>
    match ranges d !! (xu, ctrl) with
    | Some _ =>
        (Return tt, {| registers := <[(xu, ctrl) := data]> (registers d);
                       ranges := ranges d |})
    | None => (Throw (transport_exception "set_xu failed"), d)
    end.

Definition read (xu ctrl : Z) (len : nat) : M t (list N) :=
  fun d =>
    match registers d !! (xu, ctrl) with
    | Some data => (Return (firstn len data), d)
    | None => (Throw (transport_exception "get_xu failed"), d)
    end.

Definition range (xu ctrl : Z) (len : nat) : M t control_range :=
  fun d =>
    match ranges d !! (xu, ctrl) with
    | Some r => (Return r, d)
    | None => (Throw (transport_exception "get_xu_range failed"), d)
    end.

#[global] Instance device : uvc_device Z t :=
  {| set_xu := write; get_xu := read; get_xu_range := range |}.

End register_file.

(** ** [struct_feild_option<T,R,W,U>] *)

(** The abstract [struct_interface<T,R,W>]: [SI] is its state, [F] the type
    of field selectors ([U T::*]). *)
Class struct_interface (SI F : Type) : Type := {
  field_get : F -> M SI float;
  field_set : F -> float -> M SI unit }.

Module struct_feild_option.
Section WithInterface.
Context {SI F : Type} `{struct_interface SI F}.

(** [_struct_interface] is a [shared_ptr]: an address in the heap of
    struct interfaces, which other options may hold as well. *)
Record t : Type := {
  _struct_interface : positive;
  _range : option_range;
  _field : F }.

Record world : Type := {
  self : t;
  interfaces : gmap positive SI }.

(** The constructor. *)
Definition make (struct_interface : positive) (field : F)
    (range : option_range) : t :=
  {| _struct_interface := struct_interface;
     _range := range;
     _field := field |}.

(** Run a call on the object behind [_struct_interface]; dereferencing a
    pointer to nothing is undefined. *)
Definition on_interface {R} (m : M SI R) : M world R :=
  fun w =>
    match interfaces w !! _struct_interface (self w) with
    | Some si =>
        let (r, si') := m si in
        (r, {| self := self w;
               interfaces := <[_struct_interface (self w) := si']> (interfaces w) |})
    | None => (Undefined, w)
    end.

Definition set (value : float) : M world unit :=
  let* w := get_world in
  on_interface (field_set (_field (self w)) value).

Definition query : M world float :=
  let* w := get_world in
  on_interface (field_get (_field (self w))).

Definition get_range : M world option_range :=
  let* w := get_world in
  ret (_range (self w)).

Definition is_enabled (o : t) : bool := true.

Definition get_description (o : t) : option string := None.

(** Calls a client can make on the option, and a run of such calls in
    which the client goes on after an exception; nothing is known after
    undefined behaviour ([None]). *)
Inductive call : Type :=
| call_set (value : float)
| call_query
| call_get_range.

Definition perform (c : call) (w : world) : option world :=
  match c with
  | call_set value =>
      match set value w with
      | (Undefined, _) => None
      | (_, w') => Some w'
      end
  | call_query =>
      match query w with
      | (Undefined, _) => None
      | (_, w') => Some w'
      end
  | call_get_range =>
      match get_range w with
      | (Undefined, _) => None
      | (_, w') => Some w'
      end
  end.

Fixpoint run (cs : list call) (w : world) : option world :=
  match cs with
  | [] => Some w
  | c :: cs' =>
      match perform c w with
      | Some w' => run cs' w'
      | None => None
      end
  end.

End WithInterface.
End struct_feild_option.

(** A cached structure with fields addressed by number, read and written
    without failure. *)
Module cached_struct.

Definition t : Type := gmap nat float.

Definition read (f : nat) : M (gmap nat float) float :=
  fun s => (Return (default (S754_zero false) (s !! f)), s).

Definition write (f : nat) (v : float) : M (gmap nat float) unit :=
  fun s => (Return tt, <[f := v]> s).

#[global] Instance interface : struct_interface (gmap nat float) nat :=
  {| field_get := read; field_set := write |}.

End cached_struct.

(** ** Runs of calls, and what further properties ask of collaborators *)

(** A client calling [set] on a firmware-log option again and again, going
    on after an exception; each call comes with what the thread constructor
    would do in it.  Nothing is known after undefined behaviour. *)
Fixpoint fw_logger_set_all (vs : list (thread_ctor * float))
    (o : fw_logger_option.t)
  : option (list (outcome unit) * fw_logger_option.t) :=
  match vs with
  | [] => Some ([], o)
  | (ctor, v) :: vs' =>
      match fw_logger_option.set ctor v o with
      | (Undefined, _) => None
      | (r, o1) =>
          match fw_logger_set_all vs' o1 with
          | Some (rs, o2) => Some (r :: rs, o2)
          | None => None
          end
      end
  end.

(** The state machine of the data model, [Stopped] ([false]) and [Running]
    ([true]), as the specification draws it: a request for the state the
    machine is in is a sequencing violation, any other request moves it. *)
Definition toggle (running : bool) (v : float) : outcome unit * bool :=
  match float_ge v (float_of_Z 1), running with
  | true, true =>
      (Throw (wrong_api_call_sequence_exception "FW logger already started"), true)
  | true, false => (Return tt, true)
  | false, true => (Return tt, false)
  | false, false =>
      (Throw (wrong_api_call_sequence_exception "FW logger not started"), false)
  end.

Fixpoint toggle_all (vs : list float) (running : bool)
  : list (outcome unit) * bool :=
  match vs with
  | [] => ([], running)
  | v :: vs' =>
      let (r, running1) := toggle running v in
      let (rs, running2) := toggle_all vs' running1 in
      (r :: rs, running2)
  end.

(** The sink a polling thread has reached, if it has not been aborted. *)
Definition worker_sink (w : worker) : option sink :=
  match w with
  | Polling k | Exited k => Some k
  | Aborted => None
  end.

(** A [uint8_t] holds a value below 256. *)
Definition is_byte (b : N) : bool := (b <? 256)%N.

(** What a round trip through a struct interface asks of it: a successful
    read of a field returns the value last written to it successfully. *)
Definition field_holds {SI F : Type} `{struct_interface SI F} : Prop :=
  forall (f : F) (v r : float) (si si1 si2 : SI),
    field_set f v si = (Return tt, si1) ->
    field_get f si1 = (Return r, si2) ->
    r = v.

(* ===================================================================== *)
(** * Part II: theorems                                                   *)
(* ===================================================================== *)

(** ** Floats *)

Lemma float_of_Z_1 : float_of_Z 1 = S754_finite false 8388608 (-23).
Proof. reflexivity. Qed.

Lemma float_of_Z_0 : float_of_Z 0 = S754_zero false.
Proof. reflexivity. Qed.

(** No float is both [>= 1] and [< 1]. *)
Lemma float_ge_lt_excl (v b : float) :
  float_ge v b = true -> float_lt v b = false.
Proof.
  unfold float_ge, float_lt, SFleb, SFltb.
  destruct v as [sv | sv | | sv mv ev], b as [sb | sb | | sb mb eb];
    simpl; try discriminate; try reflexivity;
    repeat match goal with
           | s : bool |- _ => destruct s
           end; simpl; try discriminate; try reflexivity.
  all: rewrite (Z.compare_antisym ev eb);
    destruct (ev ?= eb)%Z; simpl; try discriminate; try reflexivity;
    change (Pos.compare_cont Eq mb mv) with (Pos.compare_cont (CompOpp Eq) mb mv);
    rewrite <- (Pos.compare_cont_antisym mv mb Eq);
    destruct (Pos.compare_cont Eq mv mb); simpl; try discriminate; reflexivity.
Qed.

Lemma float_lt_not_ge (v b : float) :
  float_lt v b = true -> float_ge v b = false.
Proof.
  intros Hlt. destruct (float_ge v b) eqn:Hge; [| reflexivity].
  apply float_ge_lt_excl in Hge. congruence.
Qed.

(** *** Widening the integer part of a float back to a float is exact *)

Lemma iter_pos_iter {A : Type} (f : A -> A) (p : positive) (x : A) :
  SpecFloat.iter_pos f p x = Pos.iter f x p.
Proof.
  revert x. induction p as [p IH | p IH |]; intros x; simpl.
  - rewrite !IH. now rewrite !Pos.iter_swap.
  - now rewrite !IH.
  - reflexivity.
Qed.

Lemma iter_xO_value (p k : positive) :
  Zpos (Pos.iter xO p k) = Zpos p * 2 ^ Zpos k.
Proof.
  induction k as [| k IH] using Pos.peano_ind.
  - simpl. lia.
  - rewrite Pos.iter_succ, Pos2Z.inj_xO, IH, Pos2Z.inj_succ, Z.pow_succ_r by lia.
    lia.
Qed.

Lemma iter_xO_digits (p k : positive) :
  digits2_pos (Pos.iter xO p k) = (digits2_pos p + k)%positive.
Proof.
  induction k as [| k IH] using Pos.peano_ind.
  - simpl. lia.
  - rewrite Pos.iter_succ. simpl. rewrite IH. lia.
Qed.

Lemma shr_iter_xO (m k : positive) :
  Pos.iter shr_1 {| shr_m := Zpos (Pos.iter xO m k); shr_r := false; shr_s := false |} k
  = {| shr_m := Zpos m; shr_r := false; shr_s := false |}.
Proof.
  induction k as [| k IH] using Pos.peano_ind.
  - reflexivity.
  - rewrite Pos.iter_succ, <- Pos.iter_swap.
    rewrite Pos.iter_succ. simpl. exact IH.
Qed.

Lemma digits2_pos_bounds (p : positive) :
  2 ^ (Zpos (digits2_pos p) - 1) <= Zpos p < 2 ^ Zpos (digits2_pos p).
Proof.
  induction p as [p IH | p IH |]; simpl digits2_pos.
  - rewrite Pos2Z.inj_succ, Z.pow_succ_r by lia.
    replace (Z.succ (Zpos (digits2_pos p)) - 1) with (Z.succ (Zpos (digits2_pos p) - 1)) by lia.
    rewrite Z.pow_succ_r by lia. lia.
  - rewrite Pos2Z.inj_succ, Z.pow_succ_r by lia.
    replace (Z.succ (Zpos (digits2_pos p)) - 1) with (Z.succ (Zpos (digits2_pos p) - 1)) by lia.
    rewrite Z.pow_succ_r by lia. lia.
  - simpl. lia.
Qed.

(** A mantissa of exactly 24 digits is left as it is. *)
Lemma round_aux_24 (s : bool) (m : positive) (e : Z) :
  digits2_pos m = 24%positive -> -149 <= e <= 104 ->
  binary_round_aux float_prec float_emax s (Zpos m) e loc_Exact = S754_finite s m e.
Proof.
  intros Hd He. unfold binary_round_aux, shr_fexp, Zdigits2, fexp, emin, float_prec, float_emax.
  rewrite Hd.
  replace (Z.max (24 + e - 24) (3 - 128 - 24) - e) with 0 by lia.
  simpl. rewrite Hd.
  replace (Z.max (24 + e - 24) (3 - 128 - 24) - e) with 0 by lia.
  simpl. destruct (Z.leb_spec e (128 - 24)); [reflexivity | lia].
Qed.

Lemma binary_round_small (s : bool) (p : positive) :
  (digits2_pos p < 24)%positive ->
  binary_round float_prec float_emax s p 0
  = S754_finite s (Pos.iter xO p (24 - digits2_pos p)) (Zpos (digits2_pos p) - 24).
Proof.
  intros Hd. unfold binary_round, shl_align, fexp, emin, float_prec, float_emax.
  replace (Z.max (Zpos (digits2_pos p) + 0 - 24) (3 - 128 - 24) - 0)
    with (Zneg (24 - digits2_pos p)) by lia.
  replace (Z.max (Zpos (digits2_pos p) + 0 - 24) (3 - 128 - 24))
    with (Zpos (digits2_pos p) - 24) by lia.
  apply round_aux_24; [| lia].
  rewrite iter_xO_digits. lia.
Qed.

Lemma binary_round_24 (s : bool) (p : positive) :
  digits2_pos p = 24%positive ->
  binary_round float_prec float_emax s p 0 = S754_finite s p 0.
Proof.
  intros Hd. unfold binary_round, shl_align, fexp, emin, float_prec, float_emax.
  rewrite Hd. simpl. now apply round_aux_24.
Qed.

Lemma binary_round_large (s : bool) (m e : positive) :
  digits2_pos m = 24%positive -> Zpos e <= 104 ->
  binary_round float_prec float_emax s (Pos.iter xO m e) 0 = S754_finite s m (Zpos e).
Proof.
  intros Hd He. unfold binary_round, shl_align, fexp, emin, float_prec, float_emax.
  rewrite iter_xO_digits, Hd.
  replace (Z.max (Zpos (24 + e) + 0 - 24) (3 - 128 - 24) - 0) with (Zpos e) by lia.
  unfold binary_round_aux, shr_fexp, Zdigits2, fexp, emin.
  rewrite iter_xO_digits, Hd.
  replace (Z.max (Zpos (24 + e) + 0 - 24) (3 - 128 - 24) - 0) with (Zpos e) by lia.
  unfold shr at 1. rewrite iter_pos_iter. cbn [shr_record_of_loc].
  rewrite shr_iter_xO. cbn [shr_m loc_of_shr_record shr_r shr_s round_nearest_even].
  rewrite Hd.
  replace (Z.max (24 + (0 + Zpos e) - 24) (3 - 128 - 24) - (0 + Zpos e)) with 0 by lia.
  cbn [shr shr_record_of_loc shr_m].
  destruct (Z.leb_spec (0 + Zpos e) (128 - 24)); [reflexivity | lia].
Qed.


Lemma shiftl_iter_xO (m k : positive) :
  Z.shiftl (Zpos m) (Zpos k) = Zpos (Pos.iter xO m k).
Proof. rewrite Z.shiftl_mul_pow2 by lia. now rewrite iter_xO_value. Qed.

Lemma float_of_Z_signed (s : bool) (p : positive) :
  float_of_Z (cond_Zopp s (Zpos p)) = binary_round float_prec float_emax s p 0.
Proof. now destruct s. Qed.

Lemma valid_finite (s : bool) (m : positive) (e : Z) :
  valid_binary float_prec float_emax (S754_finite s m e) = true ->
  Z.max (Zpos (digits2_pos m) + e - 24) (-149) = e /\ e <= 104.
Proof.
  unfold valid_binary, bounded, canonical_mantissa, fexp, emin, float_prec, float_emax.
  intros Hv. apply andb_prop in Hv as [Hc Hb].
  apply Z.eqb_eq in Hc. apply Z.leb_le in Hb. lia.
Qed.

Lemma float_of_Z_trunc_exact (v : float) (t : Z) :
  valid_float v = true ->
  float_trunc v = Some t ->
  float_trunc (float_of_Z t) = Some t.
Proof.
  unfold valid_float.
  destruct v as [s | s | | s m e]; try discriminate.
  - intros _ [= <-]. reflexivity.
  - intros Hv [= <-]. apply valid_finite in Hv as [Hcanon Hmax].
    destruct e as [| k | k].
    + assert (Hd : digits2_pos m = 24%positive) by lia.
      rewrite Z.shiftl_0_r, float_of_Z_signed, binary_round_24 by assumption.
      reflexivity.
    + assert (Hd : digits2_pos m = 24%positive) by lia.
      rewrite shiftl_iter_xO, float_of_Z_signed.
      rewrite binary_round_large by assumption.
      cbn [float_trunc]. now rewrite shiftl_iter_xO.
    + assert (Hd : (digits2_pos m <= 24)%positive) by lia.
      rewrite Z.shiftl_div_pow2 by lia.
      change (- Zneg k) with (Zpos k).
      pose proof (digits2_pos_bounds m) as [_ Hm].
      assert (Hm24 : Zpos m < 2 ^ 24).
      { eapply Z.lt_le_trans; [exact Hm |]. apply Z.pow_le_mono_r; lia. }
      assert (Hk : 0 < 2 ^ Zpos k) by (apply Z.pow_pos_nonneg; lia).
      assert (Hq : 0 <= Zpos m / 2 ^ Zpos k < 2 ^ 24).
      { split; [apply Z.div_pos; lia |].
        apply Z.div_lt_upper_bound; [lia |]. nia. }
      destruct (Zpos m / 2 ^ Zpos k) as [| p | p] eqn:Hdiv; [| | lia].
      * now destruct s.
      * assert (Hp : (digits2_pos p <= 24)%positive).
        { pose proof (digits2_pos_bounds p) as [Hlo _].
          destruct (Pos.leb_spec (digits2_pos p) 24%positive) as [| Hgt]; [assumption |].
          exfalso.
          assert (2 ^ 24 <= 2 ^ (Zpos (digits2_pos p) - 1))
            by (apply Z.pow_le_mono_r; lia).
          lia. }
        rewrite float_of_Z_signed.
        destruct (Pos.eq_dec (digits2_pos p) 24%positive) as [Heq | Hne].
        -- rewrite binary_round_24 by assumption. reflexivity.
        -- rewrite binary_round_small by lia. cbn [float_trunc].
           rewrite Z.shiftl_div_pow2 by lia.
           rewrite iter_xO_value.
           replace (- (Zpos (digits2_pos p) - 24)) with (Zpos (24 - digits2_pos p)) by lia.
           rewrite Z.div_mul; [reflexivity |].
           apply Z.pow_nonzero; lia.
Qed.

(** ** The firmware-log option: start, stop, set, query *)

Section FwLoggerControl.
Import fw_logger_option.

Lemma start_when_running (ctor : thread_ctor) (o : t) :
  _keep_fw_logger_alive o = true ->
  start_fw_logger ctor o =
    (Throw (wrong_api_call_sequence_exception "FW logger already started"), o).
Proof. intros Hrun. unfold start_fw_logger, bind, get_world. now rewrite Hrun. Qed.

(** A start on a stopped option sets the flag first; then the constructor
    throws, or the new thread replaces the old one. *)
Lemma start_when_stopped (ctor : thread_ctor) (o : t) :
  _keep_fw_logger_alive o = false ->
  start_fw_logger ctor o =
    match ctor with
    | thread_failed => (Throw system_error, with_keep_alive true o)
    | thread_started =>
        (match _fw_logger_thread o with
         | Some old => if joinable old then Undefined else Return tt
         | None => Return tt
         end,
         with_thread (Some {| joinable := true |}) (with_keep_alive true o))
    end.
Proof.
  intros Hrun. unfold start_fw_logger, bind, get_world. rewrite Hrun.
  destruct ctor; [| reflexivity].
  unfold put_world, new_thread, ret, assign_thread. simpl.
  now destruct (_fw_logger_thread o) as [[[]] |].
Qed.

Lemma stop_when_stopped (o : t) :
  _keep_fw_logger_alive o = false ->
  stop_fw_logger o =
    (Throw (wrong_api_call_sequence_exception "FW logger not started"), o).
Proof. intros Hrun. unfold stop_fw_logger, bind, get_world. now rewrite Hrun. Qed.

Lemma stop_when_running (o : t) :
  _keep_fw_logger_alive o = true ->
  stop_fw_logger o = join (with_keep_alive false o).
Proof.
  intros Hrun. unfold stop_fw_logger, bind, get_world, put_world.
  rewrite Hrun. simpl. now destruct (join (with_keep_alive false o)) as [[] ?].
Qed.

(** [join] touches the thread handle only, and never reports a sequencing
    violation. *)
Lemma join_keeps_flag (o : t) :
  _keep_fw_logger_alive (snd (join o)) = _keep_fw_logger_alive o.
Proof.
  unfold join. destruct (_fw_logger_thread o) as [[[]] |]; reflexivity.
Qed.

Lemma join_no_violation (o : t) :
  sequencing_violation (fst (join o)) = false.
Proof.
  unfold join. destruct (_fw_logger_thread o) as [[[]] |]; reflexivity.
Qed.

Lemma running_after_start (ctor : thread_ctor) (o : t) :
  _keep_fw_logger_alive (snd (start_fw_logger ctor o)) = true.
Proof.
  destruct (_keep_fw_logger_alive o) eqn:Hrun.
  - now rewrite start_when_running.
  - rewrite start_when_stopped by assumption. now destruct ctor.
Qed.

Lemma stopped_after_stop (o : t) :
  _keep_fw_logger_alive (snd (stop_fw_logger o)) = false.
Proof.
  destruct (_keep_fw_logger_alive o) eqn:Hrun.
  - rewrite stop_when_running by assumption. now rewrite join_keeps_flag.
  - now rewrite stop_when_stopped.
Qed.

Lemma start_violation_iff (ctor : thread_ctor) (o : t) :
  sequencing_violation (fst (start_fw_logger ctor o)) = true
  <-> _keep_fw_logger_alive o = true.
Proof.
  destruct (_keep_fw_logger_alive o) eqn:Hrun.
  - rewrite start_when_running by assumption. simpl. tauto.
  - rewrite start_when_stopped by assumption.
    destruct ctor; [| simpl; split; discriminate].
    destruct (_fw_logger_thread o) as [[[]] |]; simpl; split; discriminate.
Qed.

Lemma stop_violation_iff (o : t) :
  sequencing_violation (fst (stop_fw_logger o)) = true
  <-> _keep_fw_logger_alive o = false.
Proof.
  destruct (_keep_fw_logger_alive o) eqn:Hrun.
  - rewrite stop_when_running by assumption. rewrite join_no_violation.
    split; discriminate.
  - rewrite stop_when_stopped by assumption. simpl. tauto.
Qed.

Lemma set_ge_1 (ctor : thread_ctor) (v : float) :
  float_ge v (float_of_Z 1) = true -> set ctor v = start_fw_logger ctor.
Proof. intros Hv. unfold set. now rewrite Hv. Qed.

Lemma set_not_ge_1 (ctor : thread_ctor) (v : float) :
  float_ge v (float_of_Z 1) = false -> set ctor v = stop_fw_logger.
Proof. intros Hv. unfold set. now rewrite Hv. Qed.

Lemma set_lt_1 (ctor : thread_ctor) (v : float) :
  float_lt v (float_of_Z 1) = true -> set ctor v = stop_fw_logger.
Proof. intros Hv. apply set_not_ge_1. now apply float_lt_not_ge. Qed.

Lemma query_reads_flag (o : t) :
  query o = (Return (float_of_Z (Z.b2z (_keep_fw_logger_alive o))), o).
Proof. reflexivity. Qed.

(** The destructor is a guarded stop whose exception is dropped. *)
Lemma destroy_when_running (o : t) :
  _keep_fw_logger_alive o = true ->
  destroy o = try_catch_all stop_fw_logger o.
Proof.
  intros Hrun. unfold destroy, try_catch_all.
  unfold bind at 1. unfold get_world at 1. now rewrite Hrun.
Qed.

Lemma destroy_when_stopped (o : t) :
  _keep_fw_logger_alive o = false -> destroy o = (Return tt, o).
Proof.
  intros Hrun. unfold destroy, try_catch_all, bind, get_world.
  now rewrite Hrun.
Qed.

Lemma try_catch_all_world {W} (body : M W unit) (w : W) :
  snd (try_catch_all body w) = snd (body w)
  /\ threw (fst (try_catch_all body w)) = false
  /\ (threw (fst (body w)) = true -> fst (try_catch_all body w) = Return tt).
Proof.
  unfold try_catch_all.
  destruct (body w) as [[a | e |] w']; simpl; split_and!;
    try reflexivity; intros; (discriminate || reflexivity).
Qed.

(** Only a stop clears the flag. *)
Lemma flag_cleared_by_stop (ctor : thread_ctor) (v : float) (o : t) :
  _keep_fw_logger_alive o = true ->
  _keep_fw_logger_alive (snd (set ctor v o)) = false ->
  set ctor v o = stop_fw_logger o.
Proof.
  intros Hrun Hcleared. destruct (float_ge v (float_of_Z 1)) eqn:Hv.
  - rewrite set_ge_1 in Hcleared by assumption.
    rewrite running_after_start in Hcleared. discriminate.
  - now rewrite set_not_ge_1.
Qed.

(** From the constructor on, every [set] whose thread constructor does not
    fail keeps the invariant, and under it such a [set] either returns or
    reports a sequencing violation. *)
Lemma make_matches (hw : weak_ptr) (op rate : N) (description : string) :
  worker_matches_flag (make hw op rate description) = true.
Proof. reflexivity. Qed.

Lemma set_matches (v : float) (o : t) :
  worker_matches_flag o = true ->
  worker_matches_flag (snd (set thread_started v o)) = true
  /\ (fst (set thread_started v o) = Return tt
      \/ sequencing_violation (fst (set thread_started v o)) = true).
Proof.
  unfold worker_matches_flag. intros Hinv.
  destruct (float_ge v (float_of_Z 1)) eqn:Hv.
  - rewrite set_ge_1 by assumption.
    destruct (_keep_fw_logger_alive o) eqn:Hrun.
    + rewrite start_when_running by assumption. simpl. rewrite Hrun. auto.
    + rewrite start_when_stopped by assumption.
      destruct (_fw_logger_thread o) as [[[]] |]; simpl in *;
        try discriminate; auto.
  - rewrite set_not_ge_1 by assumption.
    destruct (_keep_fw_logger_alive o) eqn:Hrun.
    + rewrite stop_when_running by assumption. unfold join. simpl.
      destruct (_fw_logger_thread o) as [[[]] |]; simpl in *;
        try discriminate; auto.
    + rewrite stop_when_stopped by assumption. simpl. rewrite Hrun. auto.
Qed.

End FwLoggerControl.

(** C1: on a firmware-log option, [set(v)] with [v >= 1] is a start and ends
    in a sequencing violation exactly when the poller is already running;
    [set(v)] with [v < 1] is a stop and ends in a sequencing violation
    exactly when the poller is already stopped.  Hence the second of two
    starts in a row, and the second of two stops in a row, ends in a
    sequencing violation, whatever became of the first. *)
Theorem fw_logger_set_sequencing
    (ctor ctor' : thread_ctor) (v : float) (o : fw_logger_option.t) :
  (float_ge v (float_of_Z 1) = true ->
     fw_logger_option.set ctor v o = fw_logger_option.start_fw_logger ctor o /\
     (sequencing_violation (fst (fw_logger_option.set ctor v o)) = true
      <-> fw_logger_option._keep_fw_logger_alive o = true)) /\
  (float_lt v (float_of_Z 1) = true ->
     fw_logger_option.set ctor v o = fw_logger_option.stop_fw_logger o /\
     (sequencing_violation (fst (fw_logger_option.set ctor v o)) = true
      <-> fw_logger_option._keep_fw_logger_alive o = false)) /\
  (forall v' : float,
     float_ge v (float_of_Z 1) = true ->
     float_ge v' (float_of_Z 1) = true ->
     sequencing_violation
       (fst (fw_logger_option.set ctor' v'
               (snd (fw_logger_option.set ctor v o)))) = true) /\
  (forall v' : float,
     float_lt v (float_of_Z 1) = true ->
     float_lt v' (float_of_Z 1) = true ->
     sequencing_violation
       (fst (fw_logger_option.set ctor' v'
               (snd (fw_logger_option.set ctor v o)))) = true).
Proof.
  split_and!.
  - intros Hv. rewrite set_ge_1 by assumption.
    split; [reflexivity | apply start_violation_iff].
  - intros Hv. rewrite set_lt_1 by assumption.
    split; [reflexivity | apply stop_violation_iff].
  - intros v' Hv Hv'.
    rewrite (set_ge_1 ctor v), (set_ge_1 ctor' v') by assumption.
    apply start_violation_iff, running_after_start.
  - intros v' Hv Hv'.
    rewrite (set_lt_1 ctor v), (set_lt_1 ctor' v') by assumption.
    apply stop_violation_iff, stopped_after_stop.
Qed.

Lemma fw_logger_set_sequencing_witness :
  let o := fw_logger_option.make 1%positive 15 100 "fw log" in
  (fw_logger_option.set thread_started (float_of_Z 1) o
   = fw_logger_option.start_fw_logger thread_started o
   /\ (sequencing_violation
         (fst (fw_logger_option.set thread_started (float_of_Z 1) o)) = true
       <-> fw_logger_option._keep_fw_logger_alive o = true))
  /\ (fw_logger_option.set thread_started (float_of_Z 0) o
      = fw_logger_option.stop_fw_logger o
      /\ (sequencing_violation
            (fst (fw_logger_option.set thread_started (float_of_Z 0) o)) = true
          <-> fw_logger_option._keep_fw_logger_alive o = false))
  /\ sequencing_violation
       (fst (fw_logger_option.set thread_started (float_of_Z 1)
               (snd (fw_logger_option.set thread_started (float_of_Z 1) o)))) = true
  /\ sequencing_violation
       (fst (fw_logger_option.set thread_started (float_of_Z 0)
               (snd (fw_logger_option.set thread_started (float_of_Z 0) o)))) = true.
Proof.
  intros o.
  destruct (fw_logger_set_sequencing thread_started thread_started
              (float_of_Z 1) o) as (Hstart & _ & Htwice & _).
  destruct (fw_logger_set_sequencing thread_started thread_started
              (float_of_Z 0) o) as (_ & Hstop & _ & Hagain).
  split; [| split; [| split]].
  - apply Hstart. reflexivity.
  - apply Hstop. reflexivity.
  - apply Htwice; reflexivity.
  - apply Hagain; reflexivity.
Defined.

(** C7: a firmware-log [set] that ends in a sequencing violation leaves the
    option as it was: the flag, the thread handle and every other member
    are unchanged, so [query] answers as before. *)
Theorem fw_logger_violation_keeps_state
    (ctor : thread_ctor) (v : float) (o : fw_logger_option.t) :
  sequencing_violation (fst (fw_logger_option.set ctor v o)) = true ->
  snd (fw_logger_option.set ctor v o) = o
  /\ fw_logger_option.query (snd (fw_logger_option.set ctor v o))
     = fw_logger_option.query o.
Proof.
  intros Hviol.
  assert (Hsame : snd (fw_logger_option.set ctor v o) = o).
  { destruct (float_ge v (float_of_Z 1)) eqn:Hv.
    - rewrite set_ge_1 in * by assumption.
      apply start_violation_iff in Hviol. now rewrite start_when_running.
    - rewrite set_not_ge_1 in * by assumption.
      apply stop_violation_iff in Hviol. now rewrite stop_when_stopped. }
  split; [assumption | now rewrite Hsame].
Qed.

Lemma fw_logger_violation_keeps_state_witness :
  let o := fw_logger_option.make 1%positive 15 100 "fw log" in
  snd (fw_logger_option.set thread_started (float_of_Z 0) o) = o
  /\ fw_logger_option.query (snd (fw_logger_option.set thread_started (float_of_Z 0) o))
     = fw_logger_option.query o.
Proof.
  intros o. apply (fw_logger_violation_keeps_state thread_started (float_of_Z 0) o).
  reflexivity.
Defined.

(** C8: [query] of a firmware-log option answers 1 whenever the flag says
    running and 0 whenever it says stopped, and changes nothing; so it
    answers 1 right after a [set] that started the poller, 0 right after a
    [set] that stopped it, and 0 on a freshly constructed option. *)
Theorem fw_logger_query_reports_state (ctor : thread_ctor) :
  (forall o : fw_logger_option.t,
     fw_logger_option._keep_fw_logger_alive o = true ->
     fw_logger_option.query o = (Return (S754_finite false 8388608 (-23)), o)) /\
  (forall o : fw_logger_option.t,
     fw_logger_option._keep_fw_logger_alive o = false ->
     fw_logger_option.query o = (Return (S754_zero false), o)) /\
  (forall (v : float) (o : fw_logger_option.t),
     float_ge v (float_of_Z 1) = true ->
     fst (fw_logger_option.set ctor v o) = Return tt ->
     fst (fw_logger_option.query (snd (fw_logger_option.set ctor v o)))
     = Return (float_of_Z 1)) /\
  (forall (v : float) (o : fw_logger_option.t),
     float_lt v (float_of_Z 1) = true ->
     fst (fw_logger_option.set ctor v o) = Return tt ->
     fst (fw_logger_option.query (snd (fw_logger_option.set ctor v o)))
     = Return (float_of_Z 0)) /\
  (forall hw op rate description,
     fst (fw_logger_option.query (fw_logger_option.make hw op rate description))
     = Return (float_of_Z 0)).
Proof.
  split_and!.
  - intros o Hrun. rewrite query_reads_flag, Hrun. reflexivity.
  - intros o Hrun. rewrite query_reads_flag, Hrun. reflexivity.
  - intros v o Hv _. rewrite set_ge_1 by assumption.
    rewrite query_reads_flag, running_after_start. reflexivity.
  - intros v o Hv _. rewrite set_lt_1 by assumption.
    rewrite query_reads_flag, stopped_after_stop. reflexivity.
  - reflexivity.
Qed.

Lemma fw_logger_query_reports_state_witness :
  let o := fw_logger_option.make 1%positive 15 100 "fw log" in
  let o1 := snd (fw_logger_option.set thread_started (float_of_Z 1) o) in
  fst (fw_logger_option.query o1) = Return (float_of_Z 1)
  /\ fst (fw_logger_option.query
            (snd (fw_logger_option.set thread_started (float_of_Z 0) o1)))
     = Return (float_of_Z 0)
  /\ fw_logger_option.query o1 = (Return (S754_finite false 8388608 (-23)), o1)
  /\ fw_logger_option.query o = (Return (S754_zero false), o).
Proof.
  intros o o1.
  destruct (fw_logger_query_reports_state thread_started)
    as (Hrun & Hstop & Hstart & Hend & _).
  split_and!.
  - apply (Hstart (float_of_Z 1) o); reflexivity.
  - apply (Hend (float_of_Z 0) o1); reflexivity.
  - apply (Hrun o1); reflexivity.
  - apply (Hstop o); reflexivity.
Defined.

(** C10: every argument of a firmware-log [set] for which [value >= 1] is
    false takes the stop branch.  NaN is such an argument (it is neither
    [>= 1] nor [< 1]): [set(NaN)] is a stop, which stops a running poller
    and ends in a sequencing violation on a stopped one. *)
Theorem fw_logger_set_nan_stops (ctor : thread_ctor) :
  (forall (v : float) (o : fw_logger_option.t),
     float_ge v (float_of_Z 1) = false ->
     fw_logger_option.set ctor v o = fw_logger_option.stop_fw_logger o) /\
  float_ge S754_nan (float_of_Z 1) = false /\
  float_lt S754_nan (float_of_Z 1) = false /\
  (forall o : fw_logger_option.t,
     fw_logger_option.set ctor S754_nan o = fw_logger_option.stop_fw_logger o) /\
  (forall o : fw_logger_option.t,
     fw_logger_option._keep_fw_logger_alive o = true ->
     fw_logger_option._fw_logger_thread o = Some {| joinable := true |} ->
     fw_logger_option.set ctor S754_nan o
     = (Return tt,
        fw_logger_option.with_thread (Some {| joinable := false |})
          (fw_logger_option.with_keep_alive false o))) /\
  (forall o : fw_logger_option.t,
     fw_logger_option._keep_fw_logger_alive o = false ->
     fw_logger_option.set ctor S754_nan o
     = (Throw (wrong_api_call_sequence_exception "FW logger not started"), o)).
Proof.
  split_and!.
  - intros v o Hv. now rewrite set_not_ge_1.
  - reflexivity.
  - reflexivity.
  - intros o. now rewrite set_not_ge_1.
  - intros o Hrun Hth. rewrite set_not_ge_1 by reflexivity.
    rewrite stop_when_running by assumption.
    unfold fw_logger_option.join. simpl. rewrite Hth. reflexivity.
  - intros o Hrun. rewrite set_not_ge_1 by reflexivity.
    now apply stop_when_stopped.
Qed.

Lemma fw_logger_set_nan_stops_witness :
  let o := fw_logger_option.make 1%positive 15 100 "fw log" in
  let o1 := snd (fw_logger_option.set thread_started (float_of_Z 1) o) in
  fw_logger_option.set thread_started S754_nan o1
  = (Return tt,
     fw_logger_option.with_thread (Some {| joinable := false |})
       (fw_logger_option.with_keep_alive false o1))
  /\ fw_logger_option.set thread_started S754_nan o
     = (Throw (wrong_api_call_sequence_exception "FW logger not started"), o)
  /\ fw_logger_option.set thread_started (S754_infinity true) o
     = fw_logger_option.stop_fw_logger o.
Proof.
  intros o o1.
  destruct (fw_logger_set_nan_stops thread_started)
    as (Hbranch & _ & _ & _ & Hrun & Hstop).
  split_and!.
  - apply (Hrun o1); reflexivity.
  - apply (Hstop o); reflexivity.
  - apply (Hbranch (S754_infinity true) o); reflexivity.
Defined.

(** C6: the destructor of a firmware-log option never lets an exception
    out.  On a running option it performs the stop (the flag is cleared and
    the thread joined, exactly as [stop_fw_logger] leaves the object); on a
    stopped option it performs no stop and changes nothing.  Whenever an
    explicit stop would end in an exception, the destructor on the same
    object returns normally. *)
Theorem fw_logger_destroy_no_throw (ctor : thread_ctor) :
  (forall o : fw_logger_option.t,
     threw (fst (fw_logger_option.destroy o)) = false) /\
  (forall o : fw_logger_option.t,
     fw_logger_option._keep_fw_logger_alive o = true ->
     snd (fw_logger_option.destroy o) = snd (fw_logger_option.stop_fw_logger o)
     /\ fw_logger_option._keep_fw_logger_alive
          (snd (fw_logger_option.destroy o)) = false) /\
  (forall o : fw_logger_option.t,
     fw_logger_option._keep_fw_logger_alive o = true ->
     fw_logger_option._fw_logger_thread o <> None ->
     fst (fw_logger_option.destroy o) = Return tt) /\
  (forall o : fw_logger_option.t,
     fw_logger_option._keep_fw_logger_alive o = false ->
     fw_logger_option.destroy o = (Return tt, o)) /\
  (forall (o : fw_logger_option.t) (v : float),
     float_lt v (float_of_Z 1) = true ->
     threw (fst (fw_logger_option.set ctor v o)) = true ->
     fst (fw_logger_option.destroy o) = Return tt).
Proof.
  split_and!.
  - intros o. destruct (fw_logger_option._keep_fw_logger_alive o) eqn:Ho.
    + rewrite destroy_when_running by assumption. apply try_catch_all_world.
    + now rewrite destroy_when_stopped.
  - intros o Ho. rewrite destroy_when_running by assumption.
    destruct (try_catch_all_world fw_logger_option.stop_fw_logger o)
      as (Hworld & _ & _).
    rewrite Hworld. split; [reflexivity | apply stopped_after_stop].
  - intros o Ho Hth. rewrite destroy_when_running by assumption.
    unfold try_catch_all. rewrite stop_when_running by assumption.
    unfold fw_logger_option.join. simpl.
    destruct (fw_logger_option._fw_logger_thread o) as [[[]] |];
      [reflexivity | reflexivity | contradiction].
  - exact destroy_when_stopped.
  - intros o v Hv Hthrew. rewrite set_lt_1 in Hthrew by assumption.
    destruct (fw_logger_option._keep_fw_logger_alive o) eqn:Ho.
    + rewrite destroy_when_running by assumption.
      now apply try_catch_all_world.
    + now rewrite destroy_when_stopped.
Qed.

Lemma fw_logger_destroy_no_throw_witness :
  let o := fw_logger_option.make 1%positive 15 100 "fw log" in
  let o1 := snd (fw_logger_option.set thread_started (float_of_Z 1) o) in
  let stale := fw_logger_option.with_thread (Some {| joinable := false |}) o1 in
  (snd (fw_logger_option.destroy o1) = snd (fw_logger_option.stop_fw_logger o1)
   /\ fw_logger_option._keep_fw_logger_alive
        (snd (fw_logger_option.destroy o1)) = false)
  /\ fst (fw_logger_option.destroy o1) = Return tt
  /\ fw_logger_option.destroy o = (Return tt, o)
  /\ fst (fw_logger_option.set thread_started (float_of_Z 0) stale) = Throw system_error
  /\ fst (fw_logger_option.destroy stale) = Return tt.
Proof.
  intros o o1 stale.
  destruct (fw_logger_destroy_no_throw thread_started)
    as (_ & Hrun & Hok & Hstop & Hswallow).
  split_and!.
  - apply (Hrun o1); reflexivity.
  - apply (Hrun o1); reflexivity.
  - apply (Hok o1); [reflexivity | discriminate].
  - apply (Hstop o); reflexivity.
  - reflexivity.
  - apply (Hswallow stale (float_of_Z 0)); reflexivity.
Defined.

(** ** The firmware-log option: the polling thread *)

Lemma hexify_loop_step (n : N) (res : string) :
  hexify_loop n res =
    let res' := push_back res (hex_digit (n mod 16)%N) in
    if (N.shiftr n 4 =? 0)%N then res' else hexify_loop (N.shiftr n 4) res'.
Proof.
  rewrite hexify_loop_equation_1.
  assert (Hgen : forall (x : N) (e : N.shiftr n 4 = x),
             hexify_loop_unfold_clause_1 n (exist _ x e) res =
             let res' := push_back res (hex_digit (n mod 16)%N) in
             if (x =? 0)%N then res' else hexify_loop x res').
  { intros [| p] e; reflexivity. }
  apply Hgen.
Qed.

(** A value below 16 leaves the loop after one digit, a value below 256
    after two, least-significant first. *)
Lemma hexify_loop_nibble (n : N) (res : string) :
  (n < 16)%N -> hexify_loop n res = push_back res (hex_digit n).
Proof.
  intros Hn. rewrite hexify_loop_step. cbv zeta.
  rewrite N.shiftr_div_pow2. change (2 ^ 4)%N with 16%N.
  rewrite N.div_small, N.mod_small by assumption. reflexivity.
Qed.

Lemma hexify_loop_byte (n : N) (res : string) :
  (16 <= n < 256)%N ->
  hexify_loop n res =
    push_back (push_back res (hex_digit (n mod 16)%N)) (hex_digit (n / 16)%N).
Proof.
  intros Hn. rewrite hexify_loop_step. cbv zeta.
  rewrite N.shiftr_div_pow2. change (2 ^ 4)%N with 16%N.
  assert (Hq : (0 < n / 16 < 16)%N).
  { split.
    - apply N.div_str_pos. lia.
    - apply N.Div0.div_lt_upper_bound. lia. }
  destruct (N.eqb_spec (n / 16) 0) as [Hz | _]; [lia |].
  apply hexify_loop_nibble. lia.
Qed.

Lemma hexify_two_digits (n : N) :
  (n < 256)%N ->
  hexify n = String (hex_digit (n / 16)%N) (String (hex_digit (n mod 16)%N) "").
Proof.
  intros Hn. unfold hexify. destruct (N.lt_ge_cases n 16) as [Hlo | Hhi].
  - rewrite hexify_loop_nibble by assumption.
    rewrite N.div_small, N.mod_small by assumption. reflexivity.
  - rewrite hexify_loop_byte by lia. reflexivity.
Qed.

Lemma hex_digit_upper (k : N) :
  (k < 16)%N ->
  String.get (N.to_nat k) "0123456789ABCDEF" = Some (hex_digit k).
Proof.
  intros Hk. unfold hex_digit.
  assert (Hnat : (N.to_nat k < 16)%nat) by lia.
  revert Hnat. generalize (N.to_nat k) as i. intros i Hi.
  do 16 (destruct i as [| i]; [reflexivity |]).
  lia.
Qed.

Lemma append_assoc (a b c : string) :
  ((a ++ b) ++ c = a ++ (b ++ c))%string.
Proof.
  induction a as [| ch a IH]; [reflexivity |].
  change (String ch ((a ++ b) ++ c) = String ch (a ++ (b ++ c)))%string.
  now rewrite IH.
Qed.

Lemma append_empty (a : string) : (a ++ "" = a)%string.
Proof.
  induction a as [| ch a IH]; [reflexivity |].
  change (String ch (a ++ "") = String ch a)%string.
  now rewrite IH.
Qed.

Lemma log_line_payload (data : list N) :
  fw_logger_option.log_line data = ("FW_Log_Data:" ++ hex_payload data)%string.
Proof.
  unfold fw_logger_option.log_line.
  generalize "FW_Log_Data:"%string as tag.
  induction data as [| b data IH]; intros tag.
  - symmetry. apply append_empty.
  - cbn [fold_left hex_payload fold_right]. rewrite IH.
    now rewrite !append_assoc.
Qed.

Section Worker.
Import fw_logger_option.

Lemma poll_expired (o : t) (heap : gmap positive hw_monitor) (k : sink) :
  lock (_hw o) heap = None -> poll o heap k = (Return tt, k).
Proof. intros Hlock. unfold poll. now rewrite Hlock. Qed.

Lemma poll_failure (o : t) (heap : gmap positive hw_monitor)
    (strong : hw_monitor) (e : exception) (k : sink) :
  lock (_hw o) heap = Some strong ->
  send strong (log_command o) = Failure e ->
  poll o heap k = (Return tt, k).
Proof.
  intros Hlock Hsend. unfold poll, try_catch_all, bind, send_command.
  now rewrite Hlock, Hsend.
Qed.

Lemma poll_data (o : t) (heap : gmap positive hw_monitor)
    (strong : hw_monitor) (data : list N) (k : sink) :
  lock (_hw o) heap = Some strong ->
  send strong (log_command o) = Data data ->
  poll o heap k =
    (Return tt,
     match data with
     | [] => k
     | _ :: _ => {| elapsed_ms := elapsed_ms k;
                    log_info := log_info k ++ [log_line data] |}
     end).
Proof.
  intros Hlock Hsend. unfold poll, try_catch_all, bind, send_command.
  rewrite Hlock, Hsend. now destruct data.
Qed.

Lemma poll_returns (o : t) (heap : gmap positive hw_monitor) (k : sink) :
  fst (poll o heap k) = Return tt
  /\ elapsed_ms (snd (poll o heap k)) = elapsed_ms k.
Proof.
  destruct (lock (_hw o) heap) as [strong |] eqn:Hlock.
  - destruct (send strong (log_command o)) as [data | e] eqn:Hsend.
    + rewrite (poll_data _ _ _ _ _ Hlock Hsend). now destruct data.
    + now rewrite (poll_failure _ _ _ _ _ Hlock Hsend).
  - now rewrite poll_expired.
Qed.

Lemma iteration_poll (o : t) (heap : gmap positive hw_monitor) (k : sink) :
  iteration o heap k = poll o heap (slept o k).
Proof. reflexivity. Qed.

Lemma iteration_returns (o : t) (heap : gmap positive hw_monitor) (k : sink) :
  fst (iteration o heap k) = Return tt
  /\ elapsed_ms (snd (iteration o heap k))
     = (elapsed_ms k + _grab_rate_in_ms o)%N.
Proof. rewrite iteration_poll. apply poll_returns. Qed.

Lemma thread_step (o : t) (tk : tick) (ticks : list tick) (k : sink) :
  keep_alive_seen tk = true ->
  fw_logger_thread o (tk :: ticks) k
  = fw_logger_thread o ticks (snd (iteration o (monitors tk) k)).
Proof.
  intros Hflag. simpl. rewrite Hflag.
  pose proof (iteration_returns o (monitors tk) k) as [Hret _].
  destruct (iteration o (monitors tk) k) as [r k']. simpl in *.
  now rewrite Hret.
Qed.

Lemma thread_never_aborts (o : t) (ticks : list tick) (k : sink) :
  fw_logger_thread o ticks k <> Aborted.
Proof.
  revert k. induction ticks as [| tk ticks IH]; intros k; [discriminate |].
  destruct (keep_alive_seen tk) eqn:Hflag.
  - rewrite thread_step by assumption. apply IH.
  - simpl. rewrite Hflag. discriminate.
Qed.

Lemma thread_keeps_polling (o : t) (ticks : list tick) (k : sink) :
  Forall (fun tk => keep_alive_seen tk = true) ticks ->
  exists k',
    fw_logger_thread o ticks k = Polling k'
    /\ elapsed_ms k'
       = (elapsed_ms k + N.of_nat (length ticks) * _grab_rate_in_ms o)%N.
Proof.
  intros Hall. revert k.
  induction Hall as [| tk ticks Hflag _ IH]; intros k.
  - exists k. split; [reflexivity | simpl; lia].
  - rewrite thread_step by assumption.
    destruct (IH (snd (iteration o (monitors tk) k))) as (k' & Hrun & Hclock).
    exists k'. split; [assumption |].
    rewrite Hclock. destruct (iteration_returns o (monitors tk) k) as [_ ->].
    cbn [length]. lia.
Qed.

Lemma thread_exits_iff (o : t) (ticks : list tick) (k : sink) :
  (exists k', fw_logger_thread o ticks k = Exited k')
  <-> Exists (fun tk => keep_alive_seen tk = false) ticks.
Proof.
  revert k. induction ticks as [| tk ticks IH]; intros k.
  - split.
    + intros [k' Hk']. discriminate.
    + intros Hex. inversion Hex.
  - destruct (keep_alive_seen tk) eqn:Hflag.
    + rewrite thread_step by assumption. rewrite IH. split.
      * intros Hex. now apply Exists_cons_tl.
      * intros Hex. inversion Hex as [? ? Hhd | ? ? Htl]; subst;
          [congruence | assumption].
    + split.
      * intros _. now apply Exists_cons_hd.
      * intros _. exists k. simpl. now rewrite Hflag.
Qed.

End Worker.

(** C3: [hexify] writes a byte as exactly two upper-case hex digits, the
    most-significant nibble first (0x0A is "0A", 0xFF is "FF", 0x00 is
    "00"); the line built by the polling thread is the fixed tag followed by
    every byte's two digits and a space, so that [0x01, 0x02] gives the
    payload "01 02 "; and the line is handed to the log only when the
    payload returned by the monitor is not empty. *)
Theorem fw_log_hex_encoding :
  (forall n : N,
     (n < 256)%N ->
     hexify n
     = String (hex_digit (n / 16)%N) (String (hex_digit (n mod 16)%N) "")) /\
  (forall k : N,
     (k < 16)%N ->
     String.get (N.to_nat k) "0123456789ABCDEF" = Some (hex_digit k)) /\
  hexify 10 = "0A"%string /\
  hexify 255 = "FF"%string /\
  hexify 0 = "00"%string /\
  (forall data : list N,
     fw_logger_option.log_line data
     = ("FW_Log_Data:" ++ hex_payload data)%string) /\
  hex_payload [1%N; 2%N] = "01 02 "%string /\
  (forall (o : fw_logger_option.t) (heap : gmap positive hw_monitor)
          (strong : hw_monitor) (data : list N) (k : sink),
     lock (fw_logger_option._hw o) heap = Some strong ->
     send strong (fw_logger_option.log_command o) = Data data ->
     fw_logger_option.poll o heap k
     = (Return tt,
        match data with
        | [] => k
        | _ :: _ =>
            {| elapsed_ms := elapsed_ms k;
               log_info := log_info k ++ [fw_logger_option.log_line data] |}
        end)).
Proof.
  split_and!.
  - exact hexify_two_digits.
  - exact hex_digit_upper.
  - reflexivity.
  - reflexivity.
  - reflexivity.
  - exact log_line_payload.
  - reflexivity.
  - exact poll_data.
Qed.

Lemma fw_log_hex_encoding_witness :
  let o := fw_logger_option.make 1%positive 15 100 "fw log" in
  let heap : gmap positive hw_monitor :=
    {[ 1%positive := {| send := fun _ => Data [1%N; 2%N] |} ]} in
  let k := {| elapsed_ms := 0; log_info := [] |} in
  hexify 165 = String (hex_digit 10) (String (hex_digit 5) "")
  /\ String.get 10 "0123456789ABCDEF" = Some (hex_digit 10)
  /\ fw_logger_option.poll o heap k
     = (Return tt,
        {| elapsed_ms := 0;
           log_info := [fw_logger_option.log_line [1%N; 2%N]] |}).
Proof.
  intros o heap k.
  destruct fw_log_hex_encoding as (Htwo & Hupper & _ & _ & _ & _ & _ & Hpoll).
  split_and!.
  - apply (Htwo 165%N). reflexivity.
  - apply (Hupper 10%N). reflexivity.
  - apply (Hpoll o heap {| send := fun _ => Data [1%N; 2%N] |} [1%N; 2%N] k);
      reflexivity.
Defined.

(** C5: whatever goes wrong in one iteration of the polling thread is
    swallowed.  With the weak reference expired, or with [send] throwing,
    the iteration returns normally having slept one interval and logged
    nothing; every iteration returns normally; so the thread is never
    aborted, keeps polling for as long as it sees the flag set, and leaves
    its loop if and only if it sees the flag cleared; and a [set] clears a
    set flag only by being a stop. *)
Theorem fw_logger_worker_resilient (ctor : thread_ctor) :
  (forall (o : fw_logger_option.t) (heap : gmap positive hw_monitor) (k : sink),
     lock (fw_logger_option._hw o) heap = None ->
     fw_logger_option.iteration o heap k
     = (Return tt, fw_logger_option.slept o k)) /\
  (forall (o : fw_logger_option.t) (heap : gmap positive hw_monitor)
          (strong : hw_monitor) (e : exception) (k : sink),
     lock (fw_logger_option._hw o) heap = Some strong ->
     send strong (fw_logger_option.log_command o) = Failure e ->
     fw_logger_option.iteration o heap k
     = (Return tt, fw_logger_option.slept o k)) /\
  (forall (o : fw_logger_option.t) (heap : gmap positive hw_monitor) (k : sink),
     fst (fw_logger_option.iteration o heap k) = Return tt) /\
  (forall (o : fw_logger_option.t) (ticks : list tick) (k : sink),
     fw_logger_option.fw_logger_thread o ticks k <> Aborted) /\
  (forall (o : fw_logger_option.t) (ticks : list tick) (k : sink),
     Forall (fun tk => keep_alive_seen tk = true) ticks ->
     exists k' : sink,
       fw_logger_option.fw_logger_thread o ticks k = Polling k'
       /\ elapsed_ms k'
          = (elapsed_ms k
             + N.of_nat (length ticks) * fw_logger_option._grab_rate_in_ms o)%N) /\
  (forall (o : fw_logger_option.t) (ticks : list tick) (k : sink),
     (exists k' : sink, fw_logger_option.fw_logger_thread o ticks k = Exited k')
     <-> Exists (fun tk => keep_alive_seen tk = false) ticks) /\
  (forall (v : float) (o : fw_logger_option.t),
     fw_logger_option._keep_fw_logger_alive o = true ->
     fw_logger_option._keep_fw_logger_alive (snd (fw_logger_option.set ctor v o))
     = false ->
     fw_logger_option.set ctor v o = fw_logger_option.stop_fw_logger o).
Proof.
  split_and!.
  - intros o heap k Hlock. rewrite iteration_poll. now apply poll_expired.
  - intros o heap strong e k Hlock Hsend. rewrite iteration_poll.
    now apply (poll_failure _ _ strong e).
  - intros o heap k. apply iteration_returns.
  - exact thread_never_aborts.
  - exact thread_keeps_polling.
  - exact thread_exits_iff.
  - exact (flag_cleared_by_stop ctor).
Qed.

Lemma fw_logger_worker_resilient_witness :
  let o := fw_logger_option.make 1%positive 15 100 "fw log" in
  let broken : hw_monitor :=
    {| send := fun _ => Failure (transport_exception "usb") |} in
  let gone : gmap positive hw_monitor := ∅ in
  let failing : gmap positive hw_monitor := {[ 1%positive := broken ]} in
  let k := {| elapsed_ms := 0; log_info := [] |} in
  let ticks := [ {| keep_alive_seen := true; monitors := gone |};
                 {| keep_alive_seen := true; monitors := failing |} ] in
  fw_logger_option.iteration o gone k = (Return tt, fw_logger_option.slept o k)
  /\ fw_logger_option.iteration o failing k
     = (Return tt, fw_logger_option.slept o k)
  /\ (exists k' : sink,
        fw_logger_option.fw_logger_thread o ticks k = Polling k'
        /\ elapsed_ms k' = (0 + 2 * 100)%N)
  /\ fw_logger_option.set thread_started (float_of_Z 0)
       (snd (fw_logger_option.set thread_started (float_of_Z 1) o))
     = fw_logger_option.stop_fw_logger
         (snd (fw_logger_option.set thread_started (float_of_Z 1) o)).
Proof.
  intros o broken gone failing k ticks.
  destruct (fw_logger_worker_resilient thread_started)
    as (Hgone & Hfail & _ & _ & Hpoll & _ & Hclear).
  split; [| split; [| split]].
  - apply (Hgone o gone k). reflexivity.
  - apply (Hfail o failing broken (transport_exception "usb") k); reflexivity.
  - apply (Hpoll o ticks k).
    repeat constructor.
  - apply Hclear; reflexivity.
Defined.

(** ** The extension-unit option: object representation and round trip *)

Lemma le_bytes_length (n : nat) (u : Z) : length (le_bytes n u) = n.
Proof.
  revert u. induction n as [| n IH]; intros u; simpl; [reflexivity |].
  now rewrite IH.
Qed.

Lemma le_value_le_bytes (n : nat) (u : Z) :
  le_value (le_bytes n u) = u mod 256 ^ Z.of_nat n.
Proof.
  revert u. induction n as [| n IH]; intros u.
  - simpl. now rewrite Z.mod_1_r.
  - cbn [le_bytes le_value]. rewrite IH.
    rewrite Z2N.id by (apply Z.mod_pos_bound; lia).
    rewrite Nat2Z.inj_succ, Z.pow_succ_r by lia.
    rewrite Z.rem_mul_r by lia. reflexivity.
Qed.

Lemma pow_256_bits (T : scalar) : 256 ^ Z.of_nat (sizeof T) = 2 ^ bits T.
Proof.
  unfold bits. change 256 with (2 ^ 8). rewrite <- Z.pow_mul_r by lia.
  reflexivity.
Qed.

(** Reading back the bytes of a representable value gives the value. *)
Lemma object_value_bytes (T : scalar) (t : Z) :
  representable T t = true ->
  object_value T (object_bytes T t) = t.
Proof.
  unfold representable, T_min, T_max, object_value, object_bytes.
  intros Hrep. apply andb_prop in Hrep as [Hlo Hhi].
  apply Z.leb_le in Hlo, Hhi.
  assert (Hpos : 0 < 2 ^ bits T) by (apply Z.pow_pos_nonneg; unfold bits; lia).
  rewrite le_value_le_bytes, pow_256_bits, Z.mod_mod by lia.
  destruct (is_signed T); simpl.
  - destruct (Nat.eq_dec (sizeof T) 0%nat) as [Hz | Hnz].
    + unfold bits in *. rewrite Hz in *. simpl in *. lia.
    + assert (Hhalf : 2 ^ bits T = 2 * 2 ^ (bits T - 1)).
      { rewrite <- Z.pow_succ_r by (unfold bits; lia). f_equal. lia. }
      destruct (Z.leb_spec (2 ^ (bits T - 1)) (t mod 2 ^ bits T)) as [Hneg | Hnn].
      * destruct (Z.lt_ge_cases t 0) as [Hlt | Hge].
        -- rewrite <- (Z.mod_add t 1) by lia.
           rewrite Z.mod_small by lia. lia.
        -- rewrite Z.mod_small in Hneg by lia. lia.
      * destruct (Z.lt_ge_cases t 0) as [Hlt | Hge].
        -- rewrite <- (Z.mod_add t 1) in Hnn by lia.
           rewrite Z.mod_small in Hnn by lia. lia.
        -- apply Z.mod_small. lia.
  - apply Z.mod_small. lia.
Qed.

Lemma object_bytes_length (T : scalar) (t : Z) :
  length (object_bytes T t) = sizeof T.
Proof. apply le_bytes_length. Qed.

Lemma static_cast_T_representable (T : scalar) (v : float) (t : Z) :
  static_cast_T T v = Some t -> representable T t = true.
Proof.
  unfold static_cast_T. destruct (float_trunc v) as [z |]; [| discriminate].
  destruct (representable T z) eqn:Hrep; [| discriminate].
  intros [= <-]. exact Hrep.
Qed.

(** The register file is a transport whose registers hold what is written. *)
Lemma register_file_holds (T : scalar) :
  @register_holds Z register_file.t register_file.device T.
Proof.
  intros xu id t d d0 d1 d2 rng data _ _ _ Hset Hget.
  cbn [set_xu get_xu register_file.device] in Hset, Hget.
  unfold register_file.write in Hset. unfold register_file.read in Hget.
  destruct (register_file.ranges d !! (xu, id)); [| discriminate].
  injection Hset as <-. cbn [register_file.registers] in Hget.
  rewrite lookup_insert_eq in Hget. injection Hget as <- _.
  rewrite <- (object_bytes_length T t) at 1. apply firstn_all.
Qed.

Section XuRoundTrip.
Context {XU D : Type} `{uvc_device XU D} (T : scalar).
Hypothesis transport_holds : register_holds T.

(** C2: on an extension-unit option of scalar type [T], for a value [v]
    whose narrowing [t = static_cast<T>(v)] lies in the range the device
    reports for the register, a [set(v)] that returns followed by a
    [query()] that returns yields exactly [static_cast<float>(t)]: the
    narrowing made by [set], widened back by [query]. *)
Theorem xu_set_query_round_trip
    (v : float) (t : Z) (rng : control_range) (d0 : D)
    (w w1 w2 : uvc_xu_option.world) (r : float) :
  static_cast_T T v = Some t ->
  get_xu_range (uvc_xu_option._xu (uvc_xu_option.self w))
               (uvc_xu_option._id (uvc_xu_option.self w))
               (sizeof T) (_device (uvc_xu_option._ep w))
  = (Return rng, d0) ->
  cr_min rng <= t <= cr_max rng ->
  uvc_xu_option.set T v w = (Return tt, w1) ->
  uvc_xu_option.query T w1 = (Return r, w2) ->
  r = float_of_Z t
  /\ (valid_float v = true -> float_trunc r = Some t).
Proof.
  intros Hcast Hrange Hin Hset Hquery.
  assert (Hexact : valid_float v = true ->
                   float_trunc (float_of_Z t) = Some t).
  { intros Hvalid. apply (float_of_Z_trunc_exact v); [assumption |].
    unfold static_cast_T in Hcast.
    destruct (float_trunc v) as [z |]; [| discriminate].
    destruct (representable T z); [congruence | discriminate]. }
  cut (r = float_of_Z t); [intros ->; now split |].
  pose proof (static_cast_T_representable _ _ _ Hcast) as Hrep.
  unfold uvc_xu_option.set, bind, get_world, uvc_xu_option.on_ep,
    invoke_powered in Hset.
  rewrite Hcast in Hset.
  destruct (set_xu _ _ _ _) as [rs d1] eqn:Hxu in Hset.
  injection Hset as -> <-.
  unfold uvc_xu_option.query, bind, get_world, uvc_xu_option.on_ep,
    invoke_powered in Hquery.
  cbn [uvc_xu_option.self uvc_xu_option._ep _device] in Hquery.
  destruct (get_xu _ _ _ _) as [[data | e |] d2] eqn:Hget in Hquery;
    try discriminate.
  pose proof (transport_holds _ _ _ _ _ _ _ _ _ Hrep Hrange Hin Hxu Hget)
    as ->.
  rewrite object_bytes_length, Nat.eqb_refl in Hquery.
  unfold ret in Hquery. injection Hquery as <- _.
  now rewrite object_value_bytes.
Qed.

End XuRoundTrip.

Lemma xu_set_query_round_trip_witness :
  let d : register_file.t :=
    {| register_file.registers := ∅;
       register_file.ranges :=
         {[ (1, 2) := {| cr_min := 0; cr_max := 200; cr_step := 1; cr_def := 0 |} ]} |} in
  let w : uvc_xu_option.world :=
    {| uvc_xu_option.self := uvc_xu_option.make 1 2 "gain";
       uvc_xu_option._ep := {| _device := d |} |} in
  let v : float := S754_finite false 15518925 (-22) in
  exists (w1 w2 : uvc_xu_option.world) (r : float),
    uvc_xu_option.set uint8_t v w = (Return tt, w1)
    /\ uvc_xu_option.query uint8_t w1 = (Return r, w2)
    /\ r = float_of_Z 3
    /\ float_trunc r = Some 3.
Proof.
  intros d w v.
  eexists _, _, _.
  split; [reflexivity |]. split; [reflexivity |].
  destruct (xu_set_query_round_trip uint8_t (register_file_holds uint8_t)
              v 3 {| cr_min := 0; cr_max := 200; cr_step := 1; cr_def := 0 |} d
              w (snd (uvc_xu_option.set uint8_t v w))
              (snd (uvc_xu_option.query uint8_t
                      (snd (uvc_xu_option.set uint8_t v w))))
              (float_of_Z 3))
    as [Hr Hexact];
    [reflexivity | reflexivity | simpl; lia | reflexivity | reflexivity |].
  split; [exact Hr | apply Hexact; reflexivity].
Defined.

(** ** Ranges *)

Section StructField.
Context {SI F : Type} `{struct_interface SI F}.
Import struct_feild_option.

Lemma on_interface_self {R} (m : M SI R) (w : @world SI F) :
  self (snd (on_interface m w)) = self w.
Proof.
  unfold on_interface.
  destruct (interfaces w !! _struct_interface (self w)) as [si |];
    [| reflexivity].
  now destruct (m si).
Qed.

Lemma get_range_reads (w : @world SI F) :
  get_range w = (Return (_range (self w)), w).
Proof. reflexivity. Qed.

Lemma perform_self (c : call) (w w' : @world SI F) :
  perform c w = Some w' -> self w' = self w.
Proof.
  destruct c as [value | |]; simpl.
  - unfold set, bind, get_world.
    pose proof (on_interface_self (field_set (_field (self w)) value) w) as Hs.
    destruct (on_interface _ w) as [[] w1]; intros [= <-]; exact Hs.
  - unfold query, bind, get_world.
    pose proof (on_interface_self (field_get (_field (self w))) w) as Hs.
    destruct (on_interface _ w) as [[] w1]; intros [= <-]; exact Hs.
  - intros [= <-]. reflexivity.
Qed.

Lemma run_self (cs : list call) (w w' : @world SI F) :
  run cs w = Some w' -> self w' = self w.
Proof.
  revert w. induction cs as [| c cs IH]; intros w; simpl.
  - now intros [= <-].
  - destruct (perform c w) as [w1 |] eqn:Hc; [| discriminate].
    intros Hrun. rewrite (IH _ Hrun). exact (perform_self _ _ _ Hc).
Qed.

End StructField.

(** C4, counterexample: a struct-field option built with the range
    {min 1, max 0, step 1, default 5} reports that very range, which does
    not satisfy [min <= default <= max]. *)
Lemma struct_field_range_unchecked :
  let range := {| min := float_of_Z 1; max := float_of_Z 0;
                  step := float_of_Z 1; def := float_of_Z 5 |} in
  let w : struct_feild_option.world :=
    {| struct_feild_option.self := struct_feild_option.make 1%positive 0%nat range;
       struct_feild_option.interfaces := {[ 1%positive := (∅ : gmap nat float) ]} |} in
  fst (struct_feild_option.get_range w) = Return range
  /\ range_consistent range = false.
Proof. split; reflexivity. Qed.

(** C4, amended: the range of a firmware-log option is the fixed range
    {min 0, max 1, step 1, default 0}, which satisfies
    [min <= default <= max]; the range of a struct-field option is the
    range handed to its constructor, unchanged and unchecked, so it
    satisfies [min <= default <= max] exactly when that range does. *)
Theorem option_range_consistency :
  (forall o : fw_logger_option.t,
     let fixed := {| min := S754_zero false;
                     max := S754_finite false 8388608 (-23);
                     step := S754_finite false 8388608 (-23);
                     def := S754_zero false |} in
     fw_logger_option.get_range o = (Return fixed, o)
     /\ range_consistent fixed = true
     /\ float_trunc (min fixed) = Some 0
     /\ float_trunc (max fixed) = Some 1
     /\ float_trunc (step fixed) = Some 1
     /\ float_trunc (def fixed) = Some 0) /\
  (forall (SI F : Type) (iface : struct_interface SI F)
          (si : positive) (field : F) (range : option_range)
          (heap : gmap positive SI),
     let w := {| struct_feild_option.self :=
                   struct_feild_option.make si field range;
                 struct_feild_option.interfaces := heap |} in
     struct_feild_option.get_range w = (Return range, w)
     /\ ((exists r : option_range,
            fst (struct_feild_option.get_range w) = Return r
            /\ range_consistent r = true)
         <-> range_consistent range = true)).
Proof.
  split.
  - intros o fixed. now split_and!.
  - intros SI F iface si field range heap w. split; [reflexivity |].
    split.
    + intros (r & Hget & Hok). injection Hget as <-. exact Hok.
    + intros Hok. exists range. split; [reflexivity | exact Hok].
Qed.

Lemma option_range_consistency_witness :
  let good := {| min := float_of_Z 0; max := float_of_Z 10;
                 step := float_of_Z 1; def := float_of_Z 5 |} in
  let bad := {| min := float_of_Z 1; max := float_of_Z 0;
                step := float_of_Z 1; def := float_of_Z 5 |} in
  let heap : gmap positive (gmap nat float) := {[ 1%positive := ∅ ]} in
  let option_with (range : option_range) : struct_feild_option.world :=
    {| struct_feild_option.self :=
         struct_feild_option.make 1%positive 0%nat range;
       struct_feild_option.interfaces := heap |} in
  (exists r : option_range,
     fst (struct_feild_option.get_range (option_with good)) = Return r
     /\ range_consistent r = true)
  /\ ~ (exists r : option_range,
          fst (struct_feild_option.get_range (option_with bad)) = Return r
          /\ range_consistent r = true).
Proof.
  intros good bad heap option_with.
  destruct option_range_consistency as [_ Hfield].
  split.
  - apply (Hfield _ _ cached_struct.interface 1%positive 0%nat good heap).
    reflexivity.
  - intros Hex.
    apply (Hfield _ _ cached_struct.interface 1%positive 0%nat bad heap) in Hex.
    discriminate.
Defined.

(** C9: the range of a struct-field option is the one fixed at
    construction: after any run of [set], [query] and [get_range] calls,
    [get_range] returns the range handed to the constructor and leaves
    everything as it is, so calling it again returns the same range. *)
Theorem struct_field_range_fixed
    (SI F : Type) (iface : struct_interface SI F)
    (si : positive) (field : F) (range : option_range)
    (heap : gmap positive SI)
    (cs : list struct_feild_option.call) (w' : struct_feild_option.world) :
  struct_feild_option.run cs
    {| struct_feild_option.self := struct_feild_option.make si field range;
       struct_feild_option.interfaces := heap |} = Some w' ->
  struct_feild_option.get_range w' = (Return range, w')
  /\ (struct_feild_option.get_range ;; struct_feild_option.get_range) w'
     = (Return range, w').
Proof.
  intros Hrun. apply run_self in Hrun.
  assert (Hget : struct_feild_option.get_range w' = (Return range, w')).
  { rewrite get_range_reads, Hrun. reflexivity. }
  split; [exact Hget |].
  unfold bind. now rewrite Hget.
Qed.

Lemma struct_field_range_fixed_witness :
  let range := {| min := float_of_Z 0; max := float_of_Z 10;
                  step := float_of_Z 1; def := float_of_Z 5 |} in
  let heap : gmap positive (gmap nat float) := {[ 1%positive := ∅ ]} in
  let cs := [ struct_feild_option.call_set (float_of_Z 7);
              struct_feild_option.call_query;
              struct_feild_option.call_get_range;
              struct_feild_option.call_set (float_of_Z 99) ] in
  exists w' : struct_feild_option.world,
    struct_feild_option.run cs
      {| struct_feild_option.self := struct_feild_option.make 1%positive 0%nat range;
         struct_feild_option.interfaces := heap |} = Some w'
    /\ struct_feild_option.interfaces w' !! 1%positive
       = Some {[ 0%nat := float_of_Z 99 ]}
    /\ struct_feild_option.get_range w' = (Return range, w').
Proof.
  intros range heap cs. eexists.
  split; [reflexivity |]. split; [reflexivity |].
  apply (struct_field_range_fixed _ _ cached_struct.interface
           1%positive 0%nat range heap cs).
  reflexivity.
Defined.

(* ===================================================================== *)
(** * Part III: further properties of the code                            *)
(* ===================================================================== *)

(** ** [hexify] and the log line *)

Lemma hex_digit_inj (a b : N) :
  (a < 16)%N -> (b < 16)%N -> hex_digit a = hex_digit b -> a = b.
Proof.
  intros Ha Hb. unfold hex_digit.
  assert (Hna : (N.to_nat a < 16)%nat) by lia.
  assert (Hnb : (N.to_nat b < 16)%nat) by lia.
  intros Heq. apply N2Nat.inj. revert Hna Hnb Heq.
  generalize (N.to_nat a) as i, (N.to_nat b) as j. intros i j Hi Hj.
  do 16 (destruct i as [| i]; [
    do 16 (destruct j as [| j]; [first [reflexivity | discriminate] |]); lia |]).
  lia.
Qed.

Lemma append_cons (c : ascii) (s1 s2 : string) :
  (String c s1 ++ s2 = String c (s1 ++ s2))%string.
Proof. reflexivity. Qed.

Lemma hex_payload_cons (b : N) (data : list N) :
  (b < 256)%N ->
  hex_payload (b :: data)
  = String (hex_digit (b / 16)%N)
      (String (hex_digit (b mod 16)%N) (String " " (hex_payload data))).
Proof.
  intros Hb. cbn [hex_payload fold_right]. now rewrite hexify_two_digits.
Qed.

Lemma byte_of_nibbles (a b : N) :
  (a / 16 = b / 16)%N -> (a mod 16 = b mod 16)%N -> a = b.
Proof.
  intros Hq Hr. rewrite (N.div_mod a 16), (N.div_mod b 16) by lia.
  now rewrite Hq, Hr.
Qed.

(** X1: [hexify] is one-to-one on bytes: two bytes with the same two digits
    are the same byte. *)
Theorem hexify_injective (a b : N) :
  (a < 256)%N -> (b < 256)%N -> hexify a = hexify b -> a = b.
Proof.
  intros Ha Hb. rewrite !hexify_two_digits by assumption.
  intros [= Hhi Hlo].
  apply hex_digit_inj in Hhi, Hlo;
    try (apply N.Div0.div_lt_upper_bound; lia);
    try (apply N.mod_lt; lia).
  now apply byte_of_nibbles.
Qed.

Lemma hexify_injective_witness : hexify 171 <> hexify 172.
Proof.
  intros Heq. apply (hexify_injective 171 172) in Heq; [discriminate | |];
    reflexivity.
Defined.

Lemma hex_payload_length (data : list N) :
  Forall (fun b => (b < 256)%N) data ->
  String.length (hex_payload data) = (3 * length data)%nat.
Proof.
  induction 1 as [| b data Hb _ IH]; [reflexivity |].
  rewrite hex_payload_cons by assumption.
  cbn [String.length length]. rewrite IH. lia.
Qed.

Lemma hex_payload_inj (d1 d2 : list N) :
  Forall (fun b => (b < 256)%N) d1 ->
  Forall (fun b => (b < 256)%N) d2 ->
  hex_payload d1 = hex_payload d2 -> d1 = d2.
Proof.
  intros H1. revert d2.
  induction H1 as [| a d1 Ha _ IH]; intros d2 H2 Heq.
  - destruct H2 as [| b d2 Hb _]; [reflexivity |].
    rewrite hex_payload_cons in Heq by assumption. discriminate.
  - destruct H2 as [| b d2 Hb H2].
    + rewrite hex_payload_cons in Heq by assumption. discriminate.
    + rewrite !hex_payload_cons in Heq by assumption.
      injection Heq as Hhi Hlo Hrest.
      apply hex_digit_inj in Hhi, Hlo;
        try (apply N.Div0.div_lt_upper_bound; lia);
        try (apply N.mod_lt; lia).
      f_equal; [now apply byte_of_nibbles | now apply IH].
Qed.

Lemma append_length (s1 s2 : string) :
  String.length (s1 ++ s2) = (String.length s1 + String.length s2)%nat.
Proof.
  induction s1 as [| c s1 IH]; [reflexivity |].
  rewrite append_cons. cbn [String.length]. now rewrite IH.
Qed.

(** X2: the line the polling thread builds from a payload has 12 characters
    of tag and 3 characters per byte, and it determines the payload: two
    payloads that give the same line are the same bytes. *)
Theorem log_line_faithful (d1 d2 : list N) :
  Forall (fun b => (b < 256)%N) d1 ->
  Forall (fun b => (b < 256)%N) d2 ->
  String.length (fw_logger_option.log_line d1) = (12 + 3 * length d1)%nat
  /\ (fw_logger_option.log_line d1 = fw_logger_option.log_line d2 -> d1 = d2).
Proof.
  intros H1 H2. rewrite !log_line_payload. split.
  - rewrite append_length, hex_payload_length by assumption. reflexivity.
  - intros Heq. apply hex_payload_inj; try assumption.
    revert Heq. apply String.app_inj.
Qed.

Lemma log_line_faithful_witness :
  String.length (fw_logger_option.log_line [1%N; 2%N; 255%N]) = 21%nat
  /\ fw_logger_option.log_line [1%N; 2%N; 255%N]
     <> fw_logger_option.log_line [1%N; 2%N].
Proof.
  assert (H3 : Forall (fun b => (b < 256)%N) [1%N; 2%N; 255%N])
    by (repeat constructor).
  assert (H2 : Forall (fun b => (b < 256)%N) [1%N; 2%N])
    by (repeat constructor).
  destruct (log_line_faithful [1%N; 2%N; 255%N] [1%N; 2%N] H3 H2) as [Hlen Hinj].
  split; [exact Hlen |].
  intros Heq. apply Hinj in Heq. discriminate.
Defined.

(** ** The polling thread as a whole *)

(** X3: the polling thread composes over its observations: run on
    observations [t1] followed by [t2], it does on [t2] what it would do
    from the sink reached on [t1], and once it has left its loop on [t1]
    nothing in [t2] matters. *)
Theorem fw_logger_thread_composes
    (o : fw_logger_option.t) (t1 t2 : list tick) (k : sink) :
  fw_logger_option.fw_logger_thread o (t1 ++ t2) k
  = match fw_logger_option.fw_logger_thread o t1 k with
    | Polling k' => fw_logger_option.fw_logger_thread o t2 k'
    | Exited k' => Exited k'
    | Aborted => Aborted
    end.
Proof.
  revert k. induction t1 as [| tk t1 IH]; intros k; [reflexivity |].
  cbn [app fw_logger_option.fw_logger_thread].
  destruct (keep_alive_seen tk); [| reflexivity].
  destruct (fw_logger_option.iteration o (monitors tk) k) as [[[] | e |] k1];
    [apply IH | reflexivity | reflexivity].
Qed.

(** One iteration appends at most one line, and only a line built from a
    non-empty payload that the monitor behind [_hw] returned. *)
Lemma iteration_log (o : fw_logger_option.t) (heap : gmap positive hw_monitor)
    (k : sink) :
  log_info (snd (fw_logger_option.iteration o heap k)) = log_info k
  \/ exists (strong : hw_monitor) (data : list N),
       lock (fw_logger_option._hw o) heap = Some strong
       /\ send strong (fw_logger_option.log_command o) = Data data
       /\ data <> []
       /\ log_info (snd (fw_logger_option.iteration o heap k))
          = log_info k ++ [fw_logger_option.log_line data].
Proof.
  rewrite iteration_poll.
  destruct (lock (fw_logger_option._hw o) heap) as [strong |] eqn:Hlock.
  - destruct (send strong (fw_logger_option.log_command o)) as [data | e] eqn:Hsend.
    + rewrite (poll_data _ _ _ _ _ Hlock Hsend).
      destruct data as [| b data]; [now left |].
      right. exists strong, (b :: data). now split_and!.
    + rewrite (poll_failure _ _ _ _ _ Hlock Hsend). now left.
  - rewrite poll_expired by assumption. now left.
Qed.

(** X4: the polling thread only ever appends to the log, at most one line
    per observation, and every line it appends is the line of a non-empty
    payload that the monitor behind [_hw] returned to the log command at an
    observation where the flag was set. *)
Theorem fw_logger_thread_log_sound
    (o : fw_logger_option.t) (ticks : list tick) (k k' : sink) :
  worker_sink (fw_logger_option.fw_logger_thread o ticks k) = Some k' ->
  exists added : list string,
    log_info k' = log_info k ++ added
    /\ (length added <= length ticks)%nat
    /\ Forall
         (fun line =>
            exists (tk : tick) (strong : hw_monitor) (data : list N),
              In tk ticks
              /\ keep_alive_seen tk = true
              /\ lock (fw_logger_option._hw o) (monitors tk) = Some strong
              /\ send strong (fw_logger_option.log_command o) = Data data
              /\ data <> []
              /\ line = fw_logger_option.log_line data)
         added.
Proof.
  revert k. induction ticks as [| tk ticks IH]; intros k.
  - intros [= <-]. exists []. split_and!; [now rewrite app_nil_r | simpl; lia | constructor].
  - destruct (keep_alive_seen tk) eqn:Hflag.
    + rewrite thread_step by assumption. intros Hsink.
      destruct (IH _ Hsink) as (added & Hlog & Hlen & Hall).
      assert (Hweaken : Forall
         (fun line =>
            exists (tk0 : tick) (strong : hw_monitor) (data : list N),
              In tk0 (tk :: ticks)
              /\ keep_alive_seen tk0 = true
              /\ lock (fw_logger_option._hw o) (monitors tk0) = Some strong
              /\ send strong (fw_logger_option.log_command o) = Data data
              /\ data <> []
              /\ line = fw_logger_option.log_line data) added).
      { eapply Forall_impl; [exact Hall |].
        intros line (tk0 & strong & data & Hin & Hrest).
        exists tk0, strong, data. split; [now right | exact Hrest]. }
      destruct (iteration_log o (monitors tk) k)
        as [Hsame | (strong & data & Hlock & Hsend & Hne & Hline)].
      * exists added. rewrite Hlog, Hsame. split_and!; [reflexivity | simpl; lia | exact Hweaken].
      * exists (fw_logger_option.log_line data :: added).
        rewrite Hlog, Hline, <- app_assoc.
        split_and!; [reflexivity | simpl; lia |].
        constructor; [| exact Hweaken].
        exists tk, strong, data. split_and!; auto. now left.
    + cbn [fw_logger_option.fw_logger_thread]. rewrite Hflag.
      intros [= <-]. exists [].
      split_and!; [now rewrite app_nil_r | simpl; lia | constructor].
Qed.

Lemma fw_logger_thread_log_sound_witness :
  let o := fw_logger_option.make 1%positive 15 100 "fw log" in
  let talking : gmap positive hw_monitor :=
    {[ 1%positive := {| send := fun _ => Data [1%N; 2%N] |} ]} in
  let ticks := [ {| keep_alive_seen := true; monitors := ∅ |};
                 {| keep_alive_seen := true; monitors := talking |};
                 {| keep_alive_seen := false; monitors := talking |} ] in
  let k := {| elapsed_ms := 0; log_info := ["earlier"%string] |} in
  let k' := {| elapsed_ms := 200;
               log_info := ["earlier"%string; "FW_Log_Data:01 02 "%string] |} in
  exists added : list string,
    log_info k' = log_info k ++ added /\ (length added <= 3)%nat.
Proof.
  intros o talking ticks k k'.
  destruct (fw_logger_thread_log_sound o ticks k k') as (added & Hlog & Hlen & _);
    [reflexivity |].
  exists added. split; [exact Hlog | exact Hlen].
Defined.

(** X5: the polling thread leaves its loop at the first observation of a
    cleared flag: it has then run one iteration (and slept one grab
    interval) for each earlier observation, it does not poll at that
    observation, and nothing observed later changes the result. *)
Theorem fw_logger_thread_stops_at_first_clear
    (o : fw_logger_option.t) (t1 : list tick) (tk : tick)
    (rest : list tick) (k : sink) :
  Forall (fun t => keep_alive_seen t = true) t1 ->
  keep_alive_seen tk = false ->
  exists k' : sink,
    fw_logger_option.fw_logger_thread o (t1 ++ tk :: rest) k = Exited k'
    /\ fw_logger_option.fw_logger_thread o t1 k = Polling k'
    /\ elapsed_ms k'
       = (elapsed_ms k
          + N.of_nat (length t1) * fw_logger_option._grab_rate_in_ms o)%N.
Proof.
  intros Hall Hflag. revert k.
  induction Hall as [| t t1 Ht _ IH]; intros k.
  - exists k. cbn [app fw_logger_option.fw_logger_thread length].
    rewrite Hflag. split_and!; [reflexivity | reflexivity | lia].
  - destruct (IH (snd (fw_logger_option.iteration o (monitors t) k)))
      as (k' & Hexit & Hrun & Hclock).
    exists k'. rewrite <- app_comm_cons, !thread_step by assumption.
    split_and!; [exact Hexit | exact Hrun |].
    rewrite Hclock.
    destruct (iteration_returns o (monitors t) k) as [_ ->].
    cbn [length]. lia.
Qed.

Lemma fw_logger_thread_stops_at_first_clear_witness :
  let o := fw_logger_option.make 1%positive 15 100 "fw log" in
  let talking : gmap positive hw_monitor :=
    {[ 1%positive := {| send := fun _ => Data [1%N; 2%N] |} ]} in
  let on := {| keep_alive_seen := true; monitors := talking |} in
  let off := {| keep_alive_seen := false; monitors := talking |} in
  let k := {| elapsed_ms := 0; log_info := [] |} in
  exists k' : sink,
    fw_logger_option.fw_logger_thread o ([on; on] ++ off :: [on; on]) k = Exited k'
    /\ elapsed_ms k' = (0 + 2 * 100)%N.
Proof.
  intros o talking on off k.
  destruct (fw_logger_thread_stops_at_first_clear o [on; on] off [on; on] k)
    as (k' & Hexit & _ & Hclock);
    [repeat constructor | reflexivity |].
  exists k'. split; [exact Hexit | exact Hclock].
Defined.

(** ** The firmware-log option as a state machine *)

Lemma set_toggle (v : float) (o : fw_logger_option.t) :
  fw_logger_option.worker_matches_flag o = true ->
  fst (fw_logger_option.set thread_started v o)
  = fst (toggle (fw_logger_option._keep_fw_logger_alive o) v)
  /\ fw_logger_option._keep_fw_logger_alive
       (snd (fw_logger_option.set thread_started v o))
     = snd (toggle (fw_logger_option._keep_fw_logger_alive o) v)
  /\ fw_logger_option.worker_matches_flag
       (snd (fw_logger_option.set thread_started v o)) = true.
Proof.
  unfold fw_logger_option.worker_matches_flag, toggle. intros Hinv.
  destruct (float_ge v (float_of_Z 1)) eqn:Hv.
  - rewrite set_ge_1 by assumption.
    destruct (fw_logger_option._keep_fw_logger_alive o) eqn:Hrun.
    + rewrite start_when_running by assumption. simpl. now rewrite Hrun.
    + rewrite start_when_stopped by assumption.
      destruct (fw_logger_option._fw_logger_thread o) as [[[]] |];
        simpl in *; try discriminate; now split_and!.
  - rewrite set_not_ge_1 by assumption.
    destruct (fw_logger_option._keep_fw_logger_alive o) eqn:Hrun.
    + rewrite stop_when_running by assumption. unfold fw_logger_option.join.
      simpl. destruct (fw_logger_option._fw_logger_thread o) as [[[]] |];
        simpl in *; try discriminate. now split_and!.
    + rewrite stop_when_stopped by assumption. simpl. now rewrite Hrun.
Qed.

Lemma toggle_outcome (running : bool) (v : float) :
  fst (toggle running v) = Return tt
  \/ sequencing_violation (fst (toggle running v)) = true.
Proof.
  unfold toggle. destruct (float_ge v (float_of_Z 1)), running; simpl; auto.
Qed.

Lemma set_all_toggle (vs : list (thread_ctor * float)) (o : fw_logger_option.t) :
  Forall (fun call => fst call = thread_started) vs ->
  fw_logger_option.worker_matches_flag o = true ->
  exists (rs : list (outcome unit)) (o' : fw_logger_option.t),
    fw_logger_set_all vs o = Some (rs, o')
    /\ fw_logger_option.worker_matches_flag o' = true
    /\ toggle_all (map snd vs) (fw_logger_option._keep_fw_logger_alive o)
       = (rs, fw_logger_option._keep_fw_logger_alive o')
    /\ Forall (fun r => r = Return tt \/ sequencing_violation r = true) rs.
Proof.
  intros Hctor. revert o.
  induction Hctor as [| [ctor v] vs Hstarted _ IH]; intros o Hinv.
  - exists [], o. now split_and!.
  - simpl in Hstarted. subst ctor.
    destruct (set_toggle v o Hinv) as (Hout & Hflag & Hinv1).
    pose proof (toggle_outcome (fw_logger_option._keep_fw_logger_alive o) v)
      as Hkind.
    cbn [fw_logger_set_all toggle_all map snd].
    destruct (fw_logger_option.set thread_started v o) as [r o1].
    simpl in Hout, Hflag, Hinv1.
    destruct (toggle (fw_logger_option._keep_fw_logger_alive o) v) as [r' b1].
    simpl in Hout, Hflag, Hkind. subst r' b1.
    destruct (IH o1 Hinv1) as (rs & o' & Hrun & Hinv' & Htog & Hall).
    exists (r :: rs), o'. rewrite Hrun, Htog.
    split_and!; try assumption; try reflexivity.
    + destruct r as [[] | e |]; try reflexivity.
      destruct Hkind as [Hk | Hk]; discriminate.
    + now constructor.
Qed.

(** X6: from construction on, for any sequence of [set] calls in each of
    which the thread constructor succeeds, no call runs into undefined
    behaviour, each either returns or throws the sequencing violation, and
    a joinable worker thread exists exactly when the flag is set.  A thread
    constructor that fails breaks this: the start throws
    [std::system_error] with the flag left set and no thread started, so
    [query] answers 1 without a worker, and on an option that never had a
    thread the next stop request reaches [join] through the null pointer.
    A start that finds the flag clear but the old thread still joinable
    ends in [std::terminate]. *)
Theorem fw_logger_invariant
    (hw : weak_ptr) (op rate : N) (description : string) :
  (forall vs : list (thread_ctor * float),
     Forall (fun call => fst call = thread_started) vs ->
     exists (rs : list (outcome unit)) (o' : fw_logger_option.t),
       fw_logger_set_all vs (fw_logger_option.make hw op rate description)
       = Some (rs, o')
       /\ fw_logger_option.worker_matches_flag o' = true
       /\ Forall (fun r => r = Return tt \/ sequencing_violation r = true) rs) /\
  (forall (o : fw_logger_option.t) (v : float),
     fw_logger_option.worker_matches_flag o = true ->
     fw_logger_option._keep_fw_logger_alive o = false ->
     float_ge v (float_of_Z 1) = true ->
     fw_logger_option.set thread_failed v o
     = (Throw system_error, fw_logger_option.with_keep_alive true o)
     /\ fw_logger_option.worker_matches_flag
          (fw_logger_option.with_keep_alive true o) = false
     /\ fst (fw_logger_option.query (fw_logger_option.with_keep_alive true o))
        = Return (float_of_Z 1)) /\
  (forall (ctor : thread_ctor) (v v' : float),
     float_ge v (float_of_Z 1) = true ->
     float_ge v' (float_of_Z 1) = false ->
     fst (fw_logger_option.set ctor v'
            (snd (fw_logger_option.set thread_failed v
                    (fw_logger_option.make hw op rate description))))
     = Undefined) /\
  (forall (o : fw_logger_option.t) (v : float),
     fw_logger_option._keep_fw_logger_alive o = false ->
     fw_logger_option._fw_logger_thread o = Some {| joinable := true |} ->
     float_ge v (float_of_Z 1) = true ->
     fst (fw_logger_option.set thread_started v o) = Undefined).
Proof.
  split_and!.
  - intros vs Hctor.
    destruct (set_all_toggle vs (fw_logger_option.make hw op rate description)
                Hctor)
      as (rs & o' & Hrun & Hinv & _ & Hall); [reflexivity |].
    exists rs, o'. now split_and!.
  - intros o v Hinv Hrun Hv. rewrite set_ge_1 by assumption.
    rewrite start_when_stopped by assumption.
    unfold fw_logger_option.worker_matches_flag in *. rewrite Hrun in Hinv.
    split_and!; [reflexivity | | reflexivity].
    cbn [fw_logger_option.with_keep_alive
           fw_logger_option._keep_fw_logger_alive
           fw_logger_option._fw_logger_thread].
    destruct (fw_logger_option._fw_logger_thread o) as [[[]] |];
      simpl in *; try discriminate; reflexivity.
  - intros ctor v v' Hv Hv'.
    rewrite (set_ge_1 thread_failed v), (set_not_ge_1 ctor v') by assumption.
    rewrite start_when_stopped by reflexivity. reflexivity.
  - intros o v Hrun Hold Hv. rewrite set_ge_1 by assumption.
    rewrite start_when_stopped by assumption. now rewrite Hold.
Qed.

Lemma fw_logger_invariant_witness :
  let o := fw_logger_option.make 1%positive 15 100 "fw log" in
  let calls := [ (thread_started, float_of_Z 1); (thread_started, float_of_Z 1);
                 (thread_started, float_of_Z 0); (thread_started, S754_nan) ] in
  (exists (rs : list (outcome unit)) (o' : fw_logger_option.t),
     fw_logger_set_all calls o = Some (rs, o')
     /\ fw_logger_option.worker_matches_flag o' = true)
  /\ fw_logger_option.set thread_failed (float_of_Z 1) o
     = (Throw system_error, fw_logger_option.with_keep_alive true o)
  /\ fst (fw_logger_option.set thread_started (float_of_Z 0)
            (snd (fw_logger_option.set thread_failed (float_of_Z 1) o)))
     = Undefined
  /\ fst (fw_logger_option.set thread_started (float_of_Z 1)
            (fw_logger_option.with_thread (Some {| joinable := true |}) o))
     = Undefined.
Proof.
  intros o calls.
  destruct (fw_logger_invariant 1%positive 15 100 "fw log")
    as (Hgood & Hfail & Hnull & Hterm).
  split; [| split; [| split]].
  - destruct (Hgood calls) as (rs & o' & Hrun & Hinv & _);
      [repeat constructor |].
    exists rs, o'. split; [exact Hrun | exact Hinv].
  - apply (Hfail o (float_of_Z 1)); reflexivity.
  - apply (Hnull thread_started (float_of_Z 1) (float_of_Z 0)); reflexivity.
  - apply (Hterm (fw_logger_option.with_thread (Some {| joinable := true |}) o)
             (float_of_Z 1)); reflexivity.
Defined.

(** X7: as long as the thread constructor succeeds in every call, a
    firmware-log option whose worker thread matches its flag behaves under
    [set] as the two-state machine Stopped/Running: call by call the
    outcomes (with their messages) and the flag are those of the machine
    started in the state the flag shows. *)
Theorem fw_logger_refines_toggle
    (vs : list (thread_ctor * float)) (o : fw_logger_option.t) :
  Forall (fun call => fst call = thread_started) vs ->
  fw_logger_option.worker_matches_flag o = true ->
  exists (rs : list (outcome unit)) (o' : fw_logger_option.t),
    fw_logger_set_all vs o = Some (rs, o')
    /\ toggle_all (map snd vs) (fw_logger_option._keep_fw_logger_alive o)
       = (rs, fw_logger_option._keep_fw_logger_alive o').
Proof.
  intros Hctor Hinv.
  destruct (set_all_toggle vs o Hctor Hinv) as (rs & o' & Hrun & _ & Htog & _).
  exists rs, o'. now split.
Qed.

Lemma fw_logger_refines_toggle_witness :
  let o := fw_logger_option.make 1%positive 15 100 "fw log" in
  let vs := [float_of_Z 1; float_of_Z 7; S754_nan; float_of_Z 0; float_of_Z 1] in
  let calls := map (fun v => (thread_started, v)) vs in
  exists (rs : list (outcome unit)) (o' : fw_logger_option.t),
    fw_logger_set_all calls o = Some (rs, o')
    /\ toggle_all vs false = (rs, fw_logger_option._keep_fw_logger_alive o').
Proof.
  intros o vs calls.
  apply (fw_logger_refines_toggle calls o); [repeat constructor | reflexivity].
Defined.

(** X8: [set], [query] and the destructor never change the op-code, the
    grab rate, the monitor reference or the description, so the command the
    polling thread sends is the same through every start and stop. *)
Theorem fw_logger_members_fixed
    (ctor : thread_ctor) (v : float) (o : fw_logger_option.t) :
  forall o' : fw_logger_option.t,
    o' = snd (fw_logger_option.set ctor v o)
    \/ o' = snd (fw_logger_option.query o)
    \/ o' = snd (fw_logger_option.destroy o) ->
    fw_logger_option._fw_log_op_code o' = fw_logger_option._fw_log_op_code o
    /\ fw_logger_option._grab_rate_in_ms o' = fw_logger_option._grab_rate_in_ms o
    /\ fw_logger_option._hw o' = fw_logger_option._hw o
    /\ fw_logger_option._desciption o' = fw_logger_option._desciption o
    /\ fw_logger_option.log_command o' = fw_logger_option.log_command o.
Proof.
  assert (Hstop : forall o0 o1, o1 = snd (fw_logger_option.stop_fw_logger o0) ->
            fw_logger_option._fw_log_op_code o1 = fw_logger_option._fw_log_op_code o0
            /\ fw_logger_option._grab_rate_in_ms o1 = fw_logger_option._grab_rate_in_ms o0
            /\ fw_logger_option._hw o1 = fw_logger_option._hw o0
            /\ fw_logger_option._desciption o1 = fw_logger_option._desciption o0
            /\ fw_logger_option.log_command o1 = fw_logger_option.log_command o0).
  { intros o0 o1 ->.
    destruct (fw_logger_option._keep_fw_logger_alive o0) eqn:Hrun.
    - rewrite stop_when_running by assumption. unfold fw_logger_option.join.
      simpl. now destruct (fw_logger_option._fw_logger_thread o0) as [[[]] |].
    - now rewrite stop_when_stopped. }
  intros o' [-> | [-> | ->]].
  - destruct (float_ge v (float_of_Z 1)) eqn:Hv.
    + rewrite set_ge_1 by assumption.
      destruct (fw_logger_option._keep_fw_logger_alive o) eqn:Hrun.
      * now rewrite start_when_running.
      * rewrite start_when_stopped by assumption. now destruct ctor.
    + rewrite set_not_ge_1 by assumption. now apply Hstop.
  - now rewrite query_reads_flag.
  - destruct (fw_logger_option._keep_fw_logger_alive o) eqn:Hrun.
    + rewrite destroy_when_running by assumption.
      destruct (try_catch_all_world fw_logger_option.stop_fw_logger o) as [-> _].
      now apply Hstop.
    + now rewrite destroy_when_stopped.
Qed.

Lemma fw_logger_members_fixed_witness :
  let o := fw_logger_option.make 1%positive 15 100 "fw log" in
  fw_logger_option.log_command
    (snd (fw_logger_option.set thread_started (float_of_Z 1) o))
  = {| cmd := 15; param1 := 500 |}.
Proof.
  intros o.
  destruct (fw_logger_members_fixed thread_started (float_of_Z 1) o
              (snd (fw_logger_option.set thread_started (float_of_Z 1) o)))
    as (_ & _ & _ & _ & Hcmd); [now left |].
  exact Hcmd.
Defined.

(** X9: what [query] answers always lies in the range [get_range] reports:
    it is the range's minimum or its maximum, and neither call changes the
    option. *)
Theorem fw_logger_query_in_range (o : fw_logger_option.t) :
  exists (q : float) (r : option_range),
    fw_logger_option.query o = (Return q, o)
    /\ fw_logger_option.get_range o = (Return r, o)
    /\ (q = min r \/ q = max r)
    /\ float_le (min r) q = true
    /\ float_le q (max r) = true.
Proof.
  eexists _, _. split; [apply query_reads_flag |]. split; [reflexivity |].
  destruct (fw_logger_option._keep_fw_logger_alive o); simpl;
    split_and!; auto.
Qed.

(** X10: on an option whose worker thread matches its flag, the destructor
    returns normally and leaves the option stopped with no joinable thread
    (so destroying the [std::thread] member afterwards is harmless), and
    [query] would then answer 0. *)
Theorem fw_logger_destroy_leaves_stopped (o : fw_logger_option.t) :
  fw_logger_option.worker_matches_flag o = true ->
  exists o' : fw_logger_option.t,
    fw_logger_option.destroy o = (Return tt, o')
    /\ fw_logger_option._keep_fw_logger_alive o' = false
    /\ match fw_logger_option._fw_logger_thread o' with
       | Some th => joinable th = false
       | None => True
       end
    /\ fst (fw_logger_option.query o') = Return (float_of_Z 0).
Proof.
  unfold fw_logger_option.worker_matches_flag. intros Hinv.
  destruct (fw_logger_option._keep_fw_logger_alive o) eqn:Hrun.
  - rewrite destroy_when_running by assumption. unfold try_catch_all.
    rewrite stop_when_running by assumption. unfold fw_logger_option.join.
    simpl. destruct (fw_logger_option._fw_logger_thread o) as [[[]] |];
      simpl in Hinv; try discriminate.
    eexists. split; [reflexivity |]. now split_and!.
  - rewrite destroy_when_stopped by assumption. exists o.
    split; [reflexivity |]. rewrite query_reads_flag, Hrun.
    split_and!; try reflexivity.
    destruct (fw_logger_option._fw_logger_thread o) as [[[]] |];
      simpl in Hinv; try discriminate; auto.
Qed.

Lemma fw_logger_destroy_leaves_stopped_witness :
  let o := snd (fw_logger_option.set thread_started (float_of_Z 1)
                  (fw_logger_option.make 1%positive 15 100 "fw log")) in
  exists o' : fw_logger_option.t,
    fw_logger_option.destroy o = (Return tt, o')
    /\ fw_logger_option._keep_fw_logger_alive o' = false.
Proof.
  intros o.
  destruct (fw_logger_destroy_leaves_stopped o) as (o' & Hd & Hflag & _);
    [reflexivity |].
  exists o'. now split.
Defined.

(** ** Integers up to 24 bits as floats *)

Lemma digits2_pos_le_24 (p : positive) :
  Zpos p < 2 ^ 24 -> (digits2_pos p <= 24)%positive.
Proof.
  intros Hp. pose proof (digits2_pos_bounds p) as [Hlo _].
  destruct (Pos.leb_spec (digits2_pos p) 24%positive) as [| Hgt]; [assumption |].
  exfalso.
  assert (2 ^ 24 <= 2 ^ (Zpos (digits2_pos p) - 1))
    by (apply Z.pow_le_mono_r; lia).
  lia.
Qed.

(** The float of a positive integer below 2^24: a 24-digit mantissa and the
    exponent that puts it back in place. *)
Lemma binary_round_form (s : bool) (p : positive) :
  Zpos p < 2 ^ 24 ->
  exists (m : positive) (e : Z),
    binary_round float_prec float_emax s p 0 = S754_finite s m e
    /\ e = Zpos (digits2_pos p) - 24
    /\ Zpos m = Zpos p * 2 ^ (- e)
    /\ digits2_pos m = 24%positive.
Proof.
  intros Hp. apply digits2_pos_le_24 in Hp.
  destruct (Pos.eq_dec (digits2_pos p) 24%positive) as [Heq | Hne].
  - exists p, 0. rewrite binary_round_24 by assumption.
    split_and!; [reflexivity | lia | simpl; lia | assumption].
  - exists (Pos.iter xO p (24 - digits2_pos p)), (Zpos (digits2_pos p) - 24).
    rewrite binary_round_small by lia.
    split_and!; [reflexivity | reflexivity | | rewrite iter_xO_digits; lia].
    rewrite iter_xO_value. do 2 f_equal. lia.
Qed.

Lemma float_of_Z_small (z : Z) :
  Z.abs z < 2 ^ 24 ->
  float_trunc (float_of_Z z) = Some z /\ valid_float (float_of_Z z) = true.
Proof.
  intros Hz. destruct z as [| p | p].
  - split; reflexivity.
  - destruct (binary_round_form false p) as (m & e & Hf & He & Hm & Hd); [lia |].
    change (float_of_Z (Zpos p)) with (binary_round float_prec float_emax false p 0).
    rewrite Hf. pose proof (digits2_pos_le_24 p ltac:(lia)) as Hle. split.
    + cbn [float_trunc cond_Zopp]. rewrite Z.shiftl_div_pow2 by lia.
      rewrite Hm, Z.div_mul; [reflexivity | apply Z.pow_nonzero; lia].
    + unfold valid_float, valid_binary, bounded, canonical_mantissa, fexp,
        emin, float_prec, float_emax. rewrite Hd.
      apply andb_true_intro. split; [apply Z.eqb_eq | apply Z.leb_le]; lia.
  - destruct (binary_round_form true p) as (m & e & Hf & He & Hm & Hd); [lia |].
    change (float_of_Z (Zneg p)) with (binary_round float_prec float_emax true p 0).
    rewrite Hf. pose proof (digits2_pos_le_24 p ltac:(lia)) as Hle. split.
    + cbn [float_trunc cond_Zopp]. rewrite Z.shiftl_div_pow2 by lia.
      rewrite Hm, Z.div_mul; [reflexivity | apply Z.pow_nonzero; lia].
    + unfold valid_float, valid_binary, bounded, canonical_mantissa, fexp,
        emin, float_prec, float_emax. rewrite Hd.
      apply andb_true_intro. split; [apply Z.eqb_eq | apply Z.leb_le]; lia.
Qed.

(** Comparing the floats of two positive integers below 2^24 compares the
    integers. *)
Lemma binary_round_compare (p q m1 m2 : positive) (e1 e2 : Z) :
  e1 = Zpos (digits2_pos p) - 24 -> Zpos m1 = Zpos p * 2 ^ (- e1) ->
  e2 = Zpos (digits2_pos q) - 24 -> Zpos m2 = Zpos q * 2 ^ (- e2) ->
  Zpos p < 2 ^ 24 -> Zpos q < 2 ^ 24 ->
  match (e1 ?= e2) with
  | Lt => Lt
  | Gt => Gt
  | Eq => Pos.compare_cont Eq m1 m2
  end = (p ?= q)%positive.
Proof.
  intros He1 Hm1 He2 Hm2 Hp Hq.
  pose proof (digits2_pos_bounds p) as [Hplo Hphi].
  pose proof (digits2_pos_bounds q) as [Hqlo Hqhi].
  pose proof (digits2_pos_le_24 p Hp) as Hdp.
  pose proof (digits2_pos_le_24 q Hq) as Hdq.
  destruct (Z.compare_spec e1 e2) as [Heq | Hlt | Hgt].
  - change (Pos.compare_cont Eq m1 m2) with (m1 ?= m2)%positive.
    rewrite !Pos2Z.inj_compare, Hm1, Hm2, Heq.
    assert (Hc : 0 < 2 ^ (- e2)) by (apply Z.pow_pos_nonneg; lia).
    destruct (Z.compare_spec (Zpos p) (Zpos q)) as [Hpq | Hpq | Hpq].
    + apply Z.compare_eq_iff. now rewrite Hpq.
    + apply Z.compare_lt_iff. nia.
    + apply Z.compare_gt_iff. nia.
  - symmetry. apply Pos.compare_lt_iff.
    assert (2 ^ Zpos (digits2_pos p) <= 2 ^ (Zpos (digits2_pos q) - 1))
      by (apply Z.pow_le_mono_r; lia).
    lia.
  - symmetry. apply Pos.compare_gt_iff.
    assert (2 ^ Zpos (digits2_pos q) <= 2 ^ (Zpos (digits2_pos p) - 1))
      by (apply Z.pow_le_mono_r; lia).
    lia.
Qed.

Lemma float_of_Z_compare (a b : Z) :
  Z.abs a < 2 ^ 24 -> Z.abs b < 2 ^ 24 ->
  SFcompare (float_of_Z a) (float_of_Z b) = Some (a ?= b).
Proof.
  intros Ha Hb.
  destruct a as [| p | p], b as [| q | q]; try reflexivity.
  - destruct (binary_round_form false q) as (m & e & Hf & _); [lia |].
    change (float_of_Z (Zpos q)) with (binary_round float_prec float_emax false q 0).
    now rewrite Hf.
  - destruct (binary_round_form true q) as (m & e & Hf & _); [lia |].
    change (float_of_Z (Zneg q)) with (binary_round float_prec float_emax true q 0).
    now rewrite Hf.
  - destruct (binary_round_form false p) as (m & e & Hf & _); [lia |].
    change (float_of_Z (Zpos p)) with (binary_round float_prec float_emax false p 0).
    now rewrite Hf.
  - destruct (binary_round_form false p) as (m1 & e1 & Hf1 & He1 & Hm1 & _); [lia |].
    destruct (binary_round_form false q) as (m2 & e2 & Hf2 & He2 & Hm2 & _); [lia |].
    change (float_of_Z (Zpos p)) with (binary_round float_prec float_emax false p 0).
    change (float_of_Z (Zpos q)) with (binary_round float_prec float_emax false q 0).
    rewrite Hf1, Hf2. cbn [SFcompare]. f_equal.
    rewrite (binary_round_compare p q m1 m2 e1 e2) by (assumption || lia).
    reflexivity.
  - destruct (binary_round_form false p) as (m1 & e1 & Hf1 & _); [lia |].
    destruct (binary_round_form true q) as (m2 & e2 & Hf2 & _); [lia |].
    change (float_of_Z (Zpos p)) with (binary_round float_prec float_emax false p 0).
    change (float_of_Z (Zneg q)) with (binary_round float_prec float_emax true q 0).
    now rewrite Hf1, Hf2.
  - destruct (binary_round_form true p) as (m & e & Hf & _); [lia |].
    change (float_of_Z (Zneg p)) with (binary_round float_prec float_emax true p 0).
    now rewrite Hf.
  - destruct (binary_round_form true p) as (m1 & e1 & Hf1 & _); [lia |].
    destruct (binary_round_form false q) as (m2 & e2 & Hf2 & _); [lia |].
    change (float_of_Z (Zneg p)) with (binary_round float_prec float_emax true p 0).
    change (float_of_Z (Zpos q)) with (binary_round float_prec float_emax false q 0).
    now rewrite Hf1, Hf2.
  - destruct (binary_round_form true p) as (m1 & e1 & Hf1 & He1 & Hm1 & _); [lia |].
    destruct (binary_round_form true q) as (m2 & e2 & Hf2 & He2 & Hm2 & _); [lia |].
    change (float_of_Z (Zneg p)) with (binary_round float_prec float_emax true p 0).
    change (float_of_Z (Zneg q)) with (binary_round float_prec float_emax true q 0).
    rewrite Hf1, Hf2. cbn [SFcompare]. f_equal.
    pose proof (binary_round_compare p q m1 m2 e1 e2 He1 Hm1 He2 Hm2
                  ltac:(lia) ltac:(lia)) as Hcmp.
    change (Zneg p ?= Zneg q) with (CompOpp (p ?= q)%positive).
    rewrite <- Hcmp.
    destruct (e1 ?= e2); reflexivity.
Qed.

Lemma float_le_of_Z (a b : Z) :
  Z.abs a < 2 ^ 24 -> Z.abs b < 2 ^ 24 ->
  float_le (float_of_Z a) (float_of_Z b) = (a <=? b).
Proof.
  intros Ha Hb. unfold float_le, SFleb. rewrite float_of_Z_compare by assumption.
  unfold Z.leb. now destruct (a ?= b).
Qed.

(** ** The extension-unit option beyond the round trip *)

Lemma le_value_bound (bs : list N) :
  Forall (fun b => (b < 256)%N) bs ->
  0 <= le_value bs < 256 ^ Z.of_nat (length bs).
Proof.
  induction 1 as [| b bs Hb _ IH]; [simpl; lia |].
  cbn [le_value length]. rewrite Nat2Z.inj_succ, Z.pow_succ_r by lia. lia.
Qed.

Lemma le_bytes_le_value (bs : list N) :
  Forall (fun b => (b < 256)%N) bs ->
  le_bytes (length bs) (le_value bs) = bs.
Proof.
  induction 1 as [| b bs Hb _ IH]; [reflexivity |].
  cbn [le_value length le_bytes].
  rewrite (Z.mul_comm 256), Z.mod_add, Z.div_add by lia.
  rewrite Z.mod_small, Z.div_small by lia.
  now rewrite Z.add_0_l, N2Z.id, IH.
Qed.

Lemma le_bytes_are_bytes (n : nat) (u : Z) :
  Forall (fun b => (b < 256)%N) (le_bytes n u).
Proof.
  revert u. induction n as [| n IH]; intros u; [constructor |].
  cbn [le_bytes]. constructor; [| apply IH].
  pose proof (Z.mod_pos_bound u 256 ltac:(lia)). lia.
Qed.

(** Every content of a register of [sizeof T] bytes is the image of a [T]
    value, and of that one only. *)
Lemma object_bytes_value (T : scalar) (bs : list N) :
  (0 < sizeof T)%nat ->
  length bs = sizeof T ->
  Forall (fun b => (b < 256)%N) bs ->
  representable T (object_value T bs) = true
  /\ object_bytes T (object_value T bs) = bs.
Proof.
  intros Hsz Hlen Hbytes.
  pose proof (le_value_bound bs Hbytes) as Hu.
  rewrite Hlen, pow_256_bits in Hu.
  assert (Hhalf : 2 ^ bits T = 2 * 2 ^ (bits T - 1)).
  { rewrite <- Z.pow_succ_r by (unfold bits; lia). f_equal. lia. }
  assert (Hpos : 0 < 2 ^ (bits T - 1)) by (apply Z.pow_pos_nonneg; unfold bits; lia).
  unfold representable, T_min, T_max, object_value, object_bytes.
  destruct (is_signed T); simpl.
  - destruct (Z.leb_spec (2 ^ (bits T - 1)) (le_value bs)) as [Hneg | Hnn].
    + split; [apply andb_true_intro; split; apply Z.leb_le; lia |].
      rewrite <- (Z.mod_add _ 1) by lia.
      replace (le_value bs - 2 ^ bits T + 1 * 2 ^ bits T) with (le_value bs) by lia.
      rewrite Z.mod_small by lia. rewrite <- Hlen. now apply le_bytes_le_value.
    + split; [apply andb_true_intro; split; apply Z.leb_le; lia |].
      rewrite Z.mod_small by lia. rewrite <- Hlen. now apply le_bytes_le_value.
  - split; [apply andb_true_intro; split; apply Z.leb_le; lia |].
    rewrite Z.mod_small by lia. rewrite <- Hlen. now apply le_bytes_le_value.
Qed.

Lemma representable_small (T : scalar) (z : Z) :
  (sizeof T <= 3)%nat -> representable T z = true -> Z.abs z < 2 ^ 24.
Proof.
  unfold representable, T_min, T_max. intros Hsz Hrep.
  apply andb_prop in Hrep as [Hlo Hhi]. apply Z.leb_le in Hlo, Hhi.
  assert (Hb : 2 ^ bits T <= 2 ^ 24)
    by (apply Z.pow_le_mono_r; unfold bits; lia).
  assert (Hpos : 0 < 2 ^ bits T) by (apply Z.pow_pos_nonneg; unfold bits; lia).
  destruct (is_signed T).
  - destruct (Nat.eq_dec (sizeof T) 0%nat) as [Hz | Hnz].
    + unfold bits in *. rewrite Hz in *. simpl in *. lia.
    + assert (Hhalf : 2 ^ bits T = 2 * 2 ^ (bits T - 1)).
      { rewrite <- Z.pow_succ_r by (unfold bits; lia). f_equal. lia. }
      lia.
  - lia.
Qed.

Section XuFurther.
Context {XU D : Type} `{uvc_device XU D} (T : scalar).

Lemma xu_set_unfold (v : float) (t : Z) (w : uvc_xu_option.world) :
  static_cast_T T v = Some t ->
  uvc_xu_option.set T v w
  = (fst (set_xu (uvc_xu_option._xu (uvc_xu_option.self w))
                 (uvc_xu_option._id (uvc_xu_option.self w))
                 (object_bytes T t) (_device (uvc_xu_option._ep w))),
     {| uvc_xu_option.self := uvc_xu_option.self w;
        uvc_xu_option._ep :=
          {| _device :=
               snd (set_xu (uvc_xu_option._xu (uvc_xu_option.self w))
                           (uvc_xu_option._id (uvc_xu_option.self w))
                           (object_bytes T t) (_device (uvc_xu_option._ep w))) |} |}).
Proof.
  intros Hcast.
  unfold uvc_xu_option.set, bind, get_world, uvc_xu_option.on_ep, invoke_powered.
  rewrite Hcast. now destruct (set_xu _ _ _ _).
Qed.

Lemma xu_query_cases (w : uvc_xu_option.world) :
  let got := get_xu (uvc_xu_option._xu (uvc_xu_option.self w))
                    (uvc_xu_option._id (uvc_xu_option.self w))
                    (sizeof T) (_device (uvc_xu_option._ep w)) in
  let w' := {| uvc_xu_option.self := uvc_xu_option.self w;
               uvc_xu_option._ep := {| _device := snd got |} |} in
  uvc_xu_option.query T w
  = (match fst got with
     | Return data =>
         if Nat.eqb (length data) (sizeof T)
         then Return (float_of_Z (object_value T data))
         else Undefined
     | Throw e => Throw e
     | Undefined => Undefined
     end, w').
Proof.
  unfold uvc_xu_option.query, bind, get_world, uvc_xu_option.on_ep,
    invoke_powered, ret, undefined.
  destruct (get_xu _ _ _ _) as [[data | e |] d']; simpl; try reflexivity.
  now destruct (Nat.eqb (length data) (sizeof T)).
Qed.

Lemma xu_get_range_cases (w : uvc_xu_option.world) :
  let got := get_xu_range (uvc_xu_option._xu (uvc_xu_option.self w))
                          (uvc_xu_option._id (uvc_xu_option.self w))
                          (sizeof T) (_device (uvc_xu_option._ep w)) in
  let w' := {| uvc_xu_option.self := uvc_xu_option.self w;
               uvc_xu_option._ep := {| _device := snd got |} |} in
  uvc_xu_option.get_range T w
  = (match fst got with
     | Return rng =>
         Return {| min := float_of_Z (cr_min rng); max := float_of_Z (cr_max rng);
                   step := float_of_Z (cr_step rng); def := float_of_Z (cr_def rng) |}
     | Throw e => Throw e
     | Undefined => Undefined
     end, w').
Proof.
  unfold uvc_xu_option.get_range, bind, get_world, uvc_xu_option.on_ep,
    invoke_powered, ret.
  now destruct (get_xu_range _ _ _ _) as [[rng | e |] d'].
Qed.

(** X11: an extension-unit option adds no failure of its own and hides
    none: [set] ends exactly as its transfer ends, and [query] and
    [get_range] throw an exception exactly when their transfer throws it,
    the same exception; and none of the three ever changes the option
    object (its descriptor, control id and description). *)
Theorem xu_transport_errors_propagate
    (v : float) (t : Z) (w : uvc_xu_option.world) :
  static_cast_T T v = Some t ->
  let xu := uvc_xu_option._xu (uvc_xu_option.self w) in
  let id := uvc_xu_option._id (uvc_xu_option.self w) in
  let dev := _device (uvc_xu_option._ep w) in
  fst (uvc_xu_option.set T v w) = fst (set_xu xu id (object_bytes T t) dev)
  /\ (forall e : exception,
        fst (uvc_xu_option.query T w) = Throw e
        <-> fst (get_xu xu id (sizeof T) dev) = Throw e)
  /\ (forall e : exception,
        fst (uvc_xu_option.get_range T w) = Throw e
        <-> fst (get_xu_range xu id (sizeof T) dev) = Throw e)
  /\ uvc_xu_option.self (snd (uvc_xu_option.set T v w)) = uvc_xu_option.self w
  /\ uvc_xu_option.self (snd (uvc_xu_option.query T w)) = uvc_xu_option.self w
  /\ uvc_xu_option.self (snd (uvc_xu_option.get_range T w)) = uvc_xu_option.self w.
Proof.
  intros Hcast xu id dev.
  rewrite (xu_set_unfold v t w Hcast), xu_query_cases, xu_get_range_cases.
  cbn [fst snd uvc_xu_option.self]. fold xu id dev.
  split_and!; try reflexivity.
  - intros e. destruct (fst (get_xu xu id (sizeof T) dev)) as [data | e' |].
    + destruct (Nat.eqb (length data) (sizeof T)); split; discriminate.
    + split; intros [= ->]; reflexivity.
    + split; discriminate.
  - intros e. destruct (fst (get_xu_range xu id (sizeof T) dev)) as [rng | e' |].
    + split; discriminate.
    + split; intros [= ->]; reflexivity.
    + split; discriminate.
Qed.

(** X12: nothing is lost on the way in for integers: called with the
    float of an integer [z] (below 2^24 in absolute value) that [T] can
    represent, [set] transfers exactly the [sizeof(T)] bytes of [z], the
    bytes that read back as [z]. *)
Theorem xu_set_integer (z : Z) (w : uvc_xu_option.world) :
  Z.abs z < 2 ^ 24 ->
  representable T z = true ->
  uvc_xu_option.set T (float_of_Z z) w
  = uvc_xu_option.on_ep
      (invoke_powered
         (set_xu (uvc_xu_option._xu (uvc_xu_option.self w))
                 (uvc_xu_option._id (uvc_xu_option.self w))
                 (object_bytes T z))) w
  /\ length (object_bytes T z) = sizeof T
  /\ object_value T (object_bytes T z) = z.
Proof.
  intros Hz Hrep. destruct (float_of_Z_small z Hz) as [Hexact _].
  split_and!.
  - unfold uvc_xu_option.set, bind, get_world, static_cast_T.
    now rewrite Hexact, Hrep.
  - apply object_bytes_length.
  - now apply object_value_bytes.
Qed.

(** X13: for a register type of up to three bytes, [query] reports the
    register exactly: whatever well-formed bytes the device returns, the
    float [query] answers is a valid binary32 whose integer part is the
    value of those bytes as a [T], a value [T] can represent. *)
Theorem xu_query_exact
    (w w' : uvc_xu_option.world) (r : float) (data : list N) (d' : D) :
  (0 < sizeof T <= 3)%nat ->
  get_xu (uvc_xu_option._xu (uvc_xu_option.self w))
         (uvc_xu_option._id (uvc_xu_option.self w))
         (sizeof T) (_device (uvc_xu_option._ep w)) = (Return data, d') ->
  Forall (fun b => (b < 256)%N) data ->
  uvc_xu_option.query T w = (Return r, w') ->
  float_trunc r = Some (object_value T data)
  /\ valid_float r = true
  /\ representable T (object_value T data) = true.
Proof.
  intros [Hpos Hsz] Hget Hbytes Hquery.
  rewrite xu_query_cases, Hget in Hquery. cbn [fst snd] in Hquery.
  destruct (Nat.eqb_spec (length data) (sizeof T)) as [Hlen | Hlen];
    [| discriminate].
  injection Hquery as <- _.
  destruct (object_bytes_value T data Hpos Hlen Hbytes) as [Hrep _].
  pose proof (representable_small T _ Hsz Hrep) as Hsmall.
  destruct (float_of_Z_small _ Hsmall) as [Hexact Hvalid].
  now split_and!.
Qed.

(** X14: writing back what was read changes nothing: for a register type
    of up to three bytes, [set] applied to the float that [query] answered
    for well-formed bytes [data] transfers exactly [data]. *)
Theorem xu_query_then_set
    (w w' : uvc_xu_option.world) (r : float) (data : list N) (d' : D) :
  (0 < sizeof T <= 3)%nat ->
  get_xu (uvc_xu_option._xu (uvc_xu_option.self w))
         (uvc_xu_option._id (uvc_xu_option.self w))
         (sizeof T) (_device (uvc_xu_option._ep w)) = (Return data, d') ->
  Forall (fun b => (b < 256)%N) data ->
  uvc_xu_option.query T w = (Return r, w') ->
  uvc_xu_option.set T r w'
  = uvc_xu_option.on_ep
      (invoke_powered
         (set_xu (uvc_xu_option._xu (uvc_xu_option.self w))
                 (uvc_xu_option._id (uvc_xu_option.self w)) data)) w'.
Proof.
  intros [Hpos Hsz] Hget Hbytes Hquery.
  rewrite xu_query_cases, Hget in Hquery. cbn [fst snd] in Hquery.
  destruct (Nat.eqb_spec (length data) (sizeof T)) as [Hlen | Hlen];
    [| discriminate].
  injection Hquery as <- <-.
  destruct (object_bytes_value T data Hpos Hlen Hbytes) as [Hrep Hback].
  pose proof (representable_small T _ Hsz Hrep) as Hsmall.
  destruct (float_of_Z_small _ Hsmall) as [Hexact _].
  unfold uvc_xu_option.set, bind, get_world, static_cast_T.
  rewrite Hexact, Hrep, Hback. reflexivity.
Qed.

(** X15: for a register whose reported minimum, maximum and default are
    below 2^24 in absolute value, [get_range] reports them exactly, and the
    reported range satisfies [min <= def <= max] exactly when the device's
    integers do. *)
Theorem xu_get_range_order
    (w w' : uvc_xu_option.world) (rng : control_range) (d' : D)
    (r : option_range) :
  get_xu_range (uvc_xu_option._xu (uvc_xu_option.self w))
               (uvc_xu_option._id (uvc_xu_option.self w))
               (sizeof T) (_device (uvc_xu_option._ep w)) = (Return rng, d') ->
  Z.abs (cr_min rng) < 2 ^ 24 ->
  Z.abs (cr_max rng) < 2 ^ 24 ->
  Z.abs (cr_def rng) < 2 ^ 24 ->
  uvc_xu_option.get_range T w = (Return r, w') ->
  float_trunc (min r) = Some (cr_min rng)
  /\ float_trunc (max r) = Some (cr_max rng)
  /\ float_trunc (def r) = Some (cr_def rng)
  /\ range_consistent r
     = (cr_min rng <=? cr_def rng) && (cr_def rng <=? cr_max rng).
Proof.
  intros Hget Hmin Hmax Hdef Hrange.
  rewrite xu_get_range_cases, Hget in Hrange. cbn [fst snd] in Hrange.
  injection Hrange as <- _.
  unfold range_consistent. cbn [min max def].
  rewrite !float_le_of_Z by assumption.
  split_and!; try reflexivity; now apply float_of_Z_small.
Qed.

End XuFurther.

Lemma xu_transport_errors_propagate_witness :
  let d : register_file.t :=
    {| register_file.registers := ∅; register_file.ranges := ∅ |} in
  let w : uvc_xu_option.world :=
    {| uvc_xu_option.self := uvc_xu_option.make 1 2 "gain";
       uvc_xu_option._ep := {| _device := d |} |} in
  fst (uvc_xu_option.set uint8_t (float_of_Z 3) w)
  = Throw (transport_exception "set_xu failed")
  /\ fst (uvc_xu_option.query uint8_t w)
     = Throw (transport_exception "get_xu failed")
  /\ fst (uvc_xu_option.get_range uint8_t w)
     = Throw (transport_exception "get_xu_range failed").
Proof.
  intros d w.
  destruct (xu_transport_errors_propagate uint8_t (float_of_Z 3) 3 w)
    as (Hset & Hquery & Hrange & _); [reflexivity |].
  split; [| split].
  - rewrite Hset. reflexivity.
  - apply Hquery. reflexivity.
  - apply Hrange. reflexivity.
Defined.

Lemma xu_set_integer_witness :
  let d : register_file.t :=
    {| register_file.registers := ∅;
       register_file.ranges :=
         {[ (1, 2) := {| cr_min := -500; cr_max := 500; cr_step := 1; cr_def := 0 |} ]} |} in
  let w : uvc_xu_option.world :=
    {| uvc_xu_option.self := uvc_xu_option.make 1 2 "offset";
       uvc_xu_option._ep := {| _device := d |} |} in
  let int16_t := {| sizeof := 2; is_signed := true |} in
  uvc_xu_option.set int16_t (float_of_Z (-200)) w
  = uvc_xu_option.on_ep (invoke_powered (set_xu 1 2 [56%N; 255%N])) w.
Proof.
  intros d w int16_t.
  destruct (xu_set_integer int16_t (-200) w) as (Hset & _ & _);
    [simpl; lia | reflexivity |].
  exact Hset.
Defined.

Lemma xu_query_exact_witness :
  let d : register_file.t :=
    {| register_file.registers := {[ (1, 2) := [56%N; 255%N] ]};
       register_file.ranges := ∅ |} in
  let w : uvc_xu_option.world :=
    {| uvc_xu_option.self := uvc_xu_option.make 1 2 "offset";
       uvc_xu_option._ep := {| _device := d |} |} in
  let int16_t := {| sizeof := 2; is_signed := true |} in
  float_trunc (float_of_Z (-200)) = Some (object_value int16_t [56%N; 255%N])
  /\ valid_float (float_of_Z (-200)) = true
  /\ representable int16_t (object_value int16_t [56%N; 255%N]) = true.
Proof.
  intros d w int16_t.
  apply (xu_query_exact int16_t w w (float_of_Z (-200)) [56%N; 255%N] d);
    [split; simpl; lia | reflexivity | repeat constructor | reflexivity].
Defined.

Lemma xu_query_then_set_witness :
  let d : register_file.t :=
    {| register_file.registers := {[ (1, 2) := [56%N; 255%N] ]};
       register_file.ranges := ∅ |} in
  let w : uvc_xu_option.world :=
    {| uvc_xu_option.self := uvc_xu_option.make 1 2 "offset";
       uvc_xu_option._ep := {| _device := d |} |} in
  let int16_t := {| sizeof := 2; is_signed := true |} in
  uvc_xu_option.set int16_t (float_of_Z (-200)) w
  = uvc_xu_option.on_ep (invoke_powered (set_xu 1 2 [56%N; 255%N])) w.
Proof.
  intros d w int16_t.
  apply (xu_query_then_set int16_t w w (float_of_Z (-200)) [56%N; 255%N] d);
    [split; simpl; lia | reflexivity | repeat constructor | reflexivity].
Defined.

Lemma xu_get_range_order_witness :
  let rng := {| cr_min := -100; cr_max := 200; cr_step := 1; cr_def := 0 |} in
  let d : register_file.t :=
    {| register_file.registers := ∅;
       register_file.ranges := {[ (1, 2) := rng ]} |} in
  let w : uvc_xu_option.world :=
    {| uvc_xu_option.self := uvc_xu_option.make 1 2 "offset";
       uvc_xu_option._ep := {| _device := d |} |} in
  exists r : option_range,
    uvc_xu_option.get_range int32_t w = (Return r, w)
    /\ float_trunc (min r) = Some (-100)
    /\ float_trunc (max r) = Some 200
    /\ float_trunc (def r) = Some 0
    /\ range_consistent r = true.
Proof.
  intros rng d w. eexists. split; [reflexivity |].
  apply (xu_get_range_order int32_t w w rng d);
    [reflexivity | simpl; lia | simpl; lia | simpl; lia | reflexivity].
Defined.

(** ** Integer arguments of the firmware-log [set] *)

(** X16: called with an integer (below 2^24 in absolute value, so that the
    conversion to [float] is exact), the firmware-log [set] starts the
    poller exactly when the integer is at least 1 and stops it otherwise:
    0 and every negative integer are stop requests. *)
Theorem fw_logger_set_integer
    (ctor : thread_ctor) (z : Z) (o : fw_logger_option.t) :
  Z.abs z < 2 ^ 24 ->
  fw_logger_option.set ctor (float_of_Z z) o
  = if 1 <=? z
    then fw_logger_option.start_fw_logger ctor o
    else fw_logger_option.stop_fw_logger o.
Proof.
  intros Hz. unfold fw_logger_option.set, float_ge.
  change (SFleb (float_of_Z 1) (float_of_Z z))
    with (float_le (float_of_Z 1) (float_of_Z z)).
  rewrite float_le_of_Z by (assumption || (simpl; lia)).
  now destruct (1 <=? z).
Qed.

Lemma fw_logger_set_integer_witness :
  let o := fw_logger_option.make 1%positive 15 100 "fw log" in
  fw_logger_option.set thread_started (float_of_Z 2) o
  = fw_logger_option.start_fw_logger thread_started o
  /\ fw_logger_option.set thread_started (float_of_Z (-5)) o
     = fw_logger_option.stop_fw_logger o.
Proof.
  intros o. split.
  - apply (fw_logger_set_integer thread_started 2 o). simpl. lia.
  - apply (fw_logger_set_integer thread_started (-5) o). simpl. lia.
Defined.

(** ** The struct-field option and the interface it shares *)

Section StructFieldFurther.
Context {SI F : Type} `{struct_interface SI F}.

Lemma on_interface_found {R : Type} (m : M SI R)
    (w : @struct_feild_option.world SI F) (si : SI) :
  struct_feild_option.interfaces w
    !! struct_feild_option._struct_interface (struct_feild_option.self w)
  = Some si ->
  struct_feild_option.on_interface m w
  = (fst (m si),
     {| struct_feild_option.self := struct_feild_option.self w;
        struct_feild_option.interfaces :=
          <[struct_feild_option._struct_interface (struct_feild_option.self w)
            := snd (m si)]> (struct_feild_option.interfaces w) |}).
Proof.
  intros Hsi. unfold struct_feild_option.on_interface. rewrite Hsi.
  now destruct (m si).
Qed.

Lemma on_interface_missing {R : Type} (m : M SI R)
    (w : @struct_feild_option.world SI F) :
  struct_feild_option.interfaces w
    !! struct_feild_option._struct_interface (struct_feild_option.self w)
  = None ->
  struct_feild_option.on_interface m w = (Undefined, w).
Proof.
  intros Hsi. unfold struct_feild_option.on_interface. now rewrite Hsi.
Qed.

Lemma on_interface_frame {R : Type} (m : M SI R)
    (w : @struct_feild_option.world SI F) (a : positive) :
  (a <> struct_feild_option._struct_interface (struct_feild_option.self w) ->
   struct_feild_option.interfaces (snd (struct_feild_option.on_interface m w)) !! a
   = struct_feild_option.interfaces w !! a)
  /\ (is_Some (struct_feild_option.interfaces
                 (snd (struct_feild_option.on_interface m w)) !! a)
      <-> is_Some (struct_feild_option.interfaces w !! a)).
Proof.
  destruct (struct_feild_option.interfaces w
              !! struct_feild_option._struct_interface (struct_feild_option.self w))
    as [si |] eqn:Hsi.
  - rewrite (on_interface_found m w si Hsi). cbn [snd struct_feild_option.interfaces].
    split.
    + intros Hne. now rewrite lookup_insert_ne.
    + destruct (decide (a = struct_feild_option._struct_interface
                              (struct_feild_option.self w))) as [-> | Hne].
      * rewrite lookup_insert_eq, Hsi. split; eauto.
      * now rewrite lookup_insert_ne.
  - rewrite (on_interface_missing m w Hsi). now split.
Qed.

(** X17: a struct-field option hands the float through unchanged, and
    options that share an interface alias it: when the interface returns
    what was last written to a field, a [set(v)] that returns through one
    option followed by a [query()] that returns through any option on the
    same interface and field yields exactly [v]. *)
Theorem struct_field_set_query_shared
    (o : @struct_feild_option.t F) (w w1 w2 : @struct_feild_option.world SI F)
    (v r : float) :
  field_holds ->
  struct_feild_option._struct_interface o
  = struct_feild_option._struct_interface (struct_feild_option.self w) ->
  struct_feild_option._field o
  = struct_feild_option._field (struct_feild_option.self w) ->
  struct_feild_option.set v w = (Return tt, w1) ->
  struct_feild_option.query
    {| struct_feild_option.self := o;
       struct_feild_option.interfaces := struct_feild_option.interfaces w1 |}
  = (Return r, w2) ->
  r = v.
Proof.
  intros Hlaw Hptr Hfield Hset Hquery.
  unfold struct_feild_option.set, bind, get_world in Hset.
  destruct (struct_feild_option.interfaces w
              !! struct_feild_option._struct_interface (struct_feild_option.self w))
    as [si |] eqn:Hsi.
  - rewrite (on_interface_found _ w si Hsi) in Hset.
    injection Hset as Hout <-.
    unfold struct_feild_option.query, bind, get_world in Hquery.
    cbn [struct_feild_option.self] in Hquery.
    erewrite on_interface_found in Hquery;
      [| cbn [struct_feild_option.self struct_feild_option.interfaces];
         rewrite Hptr; apply lookup_insert_eq].
    injection Hquery as Hget _. rewrite Hfield in Hget.
    destruct (field_set _ v si) as [rs si1] eqn:Hfs.
    simpl in Hout, Hget. subst rs.
    destruct (field_get _ si1) as [rg si2] eqn:Hfg.
    simpl in Hget. subst rg.
    exact (Hlaw _ _ _ _ _ _ Hfs Hfg).
  - rewrite (on_interface_missing _ w Hsi) in Hset. discriminate.
Qed.

(** X18: a [set] or [query] through one option touches only the interface
    that option points to: every other interface in the heap is left as it
    is, none appears or disappears, and so what another option on a
    different interface answers to [query] is unaffected by the [set]. *)
Theorem struct_field_calls_frame
    (o : @struct_feild_option.t F) (w : @struct_feild_option.world SI F)
    (v : float) :
  let w1 := snd (struct_feild_option.set v w) in
  let w2 := snd (struct_feild_option.query w) in
  (forall a : positive,
     a <> struct_feild_option._struct_interface (struct_feild_option.self w) ->
     struct_feild_option.interfaces w1 !! a = struct_feild_option.interfaces w !! a
     /\ struct_feild_option.interfaces w2 !! a
        = struct_feild_option.interfaces w !! a)
  /\ (forall a : positive,
        (is_Some (struct_feild_option.interfaces w1 !! a)
         <-> is_Some (struct_feild_option.interfaces w !! a))
        /\ (is_Some (struct_feild_option.interfaces w2 !! a)
            <-> is_Some (struct_feild_option.interfaces w !! a)))
  /\ (struct_feild_option._struct_interface o
      <> struct_feild_option._struct_interface (struct_feild_option.self w) ->
      fst (struct_feild_option.query
             {| struct_feild_option.self := o;
                struct_feild_option.interfaces :=
                  struct_feild_option.interfaces w1 |})
      = fst (struct_feild_option.query
               {| struct_feild_option.self := o;
                  struct_feild_option.interfaces :=
                    struct_feild_option.interfaces w |})).
Proof.
  intros w1 w2. subst w1 w2.
  unfold struct_feild_option.set, struct_feild_option.query, bind, get_world.
  cbn [struct_feild_option.self].
  split_and!.
  - intros a Hne. split; now apply on_interface_frame.
  - intros a. split; apply on_interface_frame.
  - intros Hne.
    pose proof (on_interface_frame
                  (field_set (struct_feild_option._field
                                (struct_feild_option.self w)) v) w
                  (struct_feild_option._struct_interface o)) as [Hsame _].
    specialize (Hsame Hne).
    unfold struct_feild_option.on_interface at 1 3.
    cbn [struct_feild_option.self struct_feild_option.interfaces].
    rewrite Hsame.
    destruct (struct_feild_option.interfaces w
                !! struct_feild_option._struct_interface o) as [si |];
      [| reflexivity].
    now destruct (field_get (struct_feild_option._field o) si).
Qed.

(** X19: with nothing in the heap at the address the option holds (a null
    or dangling [_struct_interface]), [set] and [query] are undefined and
    touch nothing, while [get_range] still answers the constructor's
    range. *)
Theorem struct_field_dangling
    (w : @struct_feild_option.world SI F) (v : float) :
  struct_feild_option.interfaces w
    !! struct_feild_option._struct_interface (struct_feild_option.self w)
  = None ->
  struct_feild_option.set v w = (Undefined, w)
  /\ struct_feild_option.query w = (Undefined, w)
  /\ struct_feild_option.get_range w
     = (Return (struct_feild_option._range (struct_feild_option.self w)), w).
Proof.
  intros Hsi.
  unfold struct_feild_option.set, struct_feild_option.query, bind, get_world.
  rewrite !on_interface_missing by assumption. now split_and!.
Qed.

End StructFieldFurther.

Lemma cached_struct_holds : @field_holds (gmap nat float) nat cached_struct.interface.
Proof.
  intros f v r si si1 si2 Hset Hget.
  cbn [field_set field_get cached_struct.interface] in Hset, Hget.
  unfold cached_struct.write in Hset. unfold cached_struct.read in Hget.
  injection Hset as <-. injection Hget as <- _.
  now rewrite lookup_insert_eq.
Qed.

Lemma struct_field_set_query_shared_witness :
  let range := {| min := float_of_Z 0; max := float_of_Z 10;
                  step := float_of_Z 1; def := float_of_Z 5 |} in
  let heap : gmap positive (gmap nat float) := {[ 1%positive := ∅ ]} in
  let o1 := struct_feild_option.make 1%positive 3%nat range in
  let o2 := struct_feild_option.make 1%positive 3%nat range in
  let v : float := S754_finite false 15518925 (-22) in
  exists (w1 w2 : struct_feild_option.world) (r : float),
    struct_feild_option.set v
      {| struct_feild_option.self := o1;
         struct_feild_option.interfaces := heap |} = (Return tt, w1)
    /\ struct_feild_option.query
         {| struct_feild_option.self := o2;
            struct_feild_option.interfaces := struct_feild_option.interfaces w1 |}
       = (Return r, w2)
    /\ r = v.
Proof.
  intros range heap o1 o2 v. eexists _, _, _.
  split; [reflexivity |]. split; [reflexivity |].
  eapply (struct_field_set_query_shared o2
            {| struct_feild_option.self := o1;
               struct_feild_option.interfaces := heap |} _ _ v);
    [exact cached_struct_holds | reflexivity | reflexivity
     | reflexivity | reflexivity].
Defined.

Lemma struct_field_calls_frame_witness :
  let range := {| min := float_of_Z 0; max := float_of_Z 10;
                  step := float_of_Z 1; def := float_of_Z 5 |} in
  let heap : gmap positive (gmap nat float) :=
    {[ 1%positive := ∅; 2%positive := {[ 3%nat := float_of_Z 7 ]} ]} in
  let o1 := struct_feild_option.make 1%positive 3%nat range in
  let o2 := struct_feild_option.make 2%positive 3%nat range in
  let w := {| struct_feild_option.self := o1;
              struct_feild_option.interfaces := heap |} in
  fst (struct_feild_option.query
         {| struct_feild_option.self := o2;
            struct_feild_option.interfaces :=
              struct_feild_option.interfaces
                (snd (struct_feild_option.set (float_of_Z 9) w)) |})
  = fst (struct_feild_option.query
           {| struct_feild_option.self := o2;
              struct_feild_option.interfaces := heap |}).
Proof.
  intros range heap o1 o2 w.
  apply (struct_field_calls_frame o2 w (float_of_Z 9)). discriminate.
Defined.

Lemma struct_field_dangling_witness :
  let range := {| min := float_of_Z 0; max := float_of_Z 10;
                  step := float_of_Z 1; def := float_of_Z 5 |} in
  let w : struct_feild_option.world :=
    {| struct_feild_option.self := struct_feild_option.make 4%positive 3%nat range;
       struct_feild_option.interfaces := {[ 1%positive := (∅ : gmap nat float) ]} |} in
  struct_feild_option.set (float_of_Z 9) w = (Undefined, w)
  /\ struct_feild_option.query w = (Undefined, w)
  /\ struct_feild_option.get_range w = (Return range, w).
Proof.
  intros range w. apply (struct_field_dangling w (float_of_Z 9)). reflexivity.
Defined.
